(** * The Dojo entity store of the Svelte SDK

    A shallow embedding of [packages/svelte-sdk/src/state/svelte.ts]
    ([createDojoStore]): the entity cache, the optimistic-update ledger
    (apply / revert / confirm) and the subscription and wait primitives,
    together with models of the two libraries the file builds on, immer
    (drafts and patches) and svelte/store (a writable store).

    Layout: data model, JSON image of the state, immer, the writable
    store, the store operations, the waiter; then the lemmas. *)

From stdpp Require Import gmap strings list fin_maps.

Set Warnings "-register-all,-clear-no-such-hyp".
Open Scope string_scope.

(** ** JSON values

    What a JavaScript object tree holds.  Objects are finite maps, so
    that structural equality of two trees is Leibniz equality. *)

Inductive json :=
  | JUndefined
  | JNull
  | JBool (b : bool)
  | JNum (n : Z)
  | JStr (s : string)
  | JArr (l : list json)
  | JObj (o : gmap string json).

Global Instance json_eq_dec : EqDecision json.
Proof.
  refine (fix go (x y : json) {struct x} : Decision (x = y) :=
    let _ : EqDecision json := @go in
    match x, y with
    | JUndefined, JUndefined => left _
    | JNull, JNull => left _
    | JBool a, JBool b => cast_if (decide (a = b))
    | JNum a, JNum b => cast_if (decide (a = b))
    | JStr a, JStr b => cast_if (decide (a = b))
    | JArr a, JArr b => cast_if (decide (a = b))
    | JObj a, JObj b => cast_if (decide (a = b))
    | _, _ => right _
    end); abstract congruence.
Defined.

(** Nesting depth of objects. *)
Fixpoint height (v : json) : nat :=
  match v with
  | JObj o => S (map_fold (λ _ c acc, max (height c) acc) 0 o)
  | _ => 0
  end.

(** ** Data model ([svelte.ts], lines 16-29, and immer's [Patch]) *)

Inductive PatchOp := Replace | Remove | Add.

Global Instance PatchOp_eq_dec : EqDecision PatchOp.
Proof. solve_decision. Defined.

(** Modelled from the spec: "A patch/edit script is an ordered sequence of
    structural operations (add/replace/remove at a path within the Cache
    State)".  This is immer's [Patch], [{ op; path; value? }], which
    [svelte.ts] imports; only object keys occur in the paths of this
    store. *)
Record Patch := {
  op : PatchOp;
  path : list string;
  value : option json
}.

Global Instance Patch_eq_dec : EqDecision Patch.
Proof. solve_decision. Defined.

Record PendingTransaction := {
  transactionId : string;
  patches : list Patch;
  inversePatches : list Patch
}.

Global Instance PendingTransaction_eq_dec : EqDecision PendingTransaction.
Proof. solve_decision. Defined.

(** Modelled from the spec: "Entity. Identified by an opaque string key
    ([entityId]). Holds a [models] attribute: a two-level mapping —
    namespace name → model name → field values."  This is
    [ParsedEntity<T>] of [../types], which is not among the sources. *)
Record ParsedEntity := {
  entityId : string;
  models : gmap string (gmap string json)
}.

Global Instance ParsedEntity_eq_dec : EqDecision ParsedEntity.
Proof. solve_decision. Defined.

(** [Partial<ParsedEntity<T>>]: every property may be missing. *)
Record PartialEntity := {
  partial_entityId : option string;
  partial_models : option (gmap string (gmap string json))
}.

Record GameState := {
  entities : gmap string ParsedEntity;
  pendingTransactions : gmap string PendingTransaction
}.

Global Instance GameState_eq_dec : EqDecision GameState.
Proof. solve_decision. Defined.

Definition initialState : GameState :=
  {| entities := ∅; pendingTransactions := ∅ |}.

(** ** The JSON image of the state

    immer's patches address the state as a plain object tree.  The
    functions below give the tree of each typed value and read a typed
    value back from a tree. *)

Definition op_name (o : PatchOp) : string :=
  match o with Replace => "replace" | Remove => "remove" | Add => "add" end.

Definition op_of_name (s : string) : option PatchOp :=
  if decide (s = "replace") then Some Replace
  else if decide (s = "remove") then Some Remove
  else if decide (s = "add") then Some Add
  else None.

Definition as_string (j : json) : option string :=
  match j with JStr s => Some s | _ => None end.

Definition as_object (j : json) : option (gmap string json) :=
  match j with JObj o => Some o | _ => None end.

Definition as_array (j : json) : option (list json) :=
  match j with JArr l => Some l | _ => None end.

Definition get_string (o : gmap string json) (k : string) : option string :=
  match o !! k with Some (JStr s) => Some s | _ => None end.

Definition get_array (o : gmap string json) (k : string) : option (list json) :=
  match o !! k with Some (JArr l) => Some l | _ => None end.

Definition get_object (o : gmap string json) (k : string)
    : option (gmap string json) :=
  match o !! k with Some (JObj c) => Some c | _ => None end.

Definition json_of_patch (p : Patch) : json :=
  JObj (<["op" := JStr (op_name (op p))]>
       (<["path" := JArr (JStr <$> path p)]>
       (match value p with Some v => {["value" := v]} | None => ∅ end))).

Definition patch_of_json (j : json) : option Patch :=
  o ← as_object j;
  n ← get_string o "op";
  k ← op_of_name n;
  l ← get_array o "path";
  p ← mapM as_string l;
  Some {| op := k; path := p; value := o !! "value" |}.

Definition json_of_transaction (t : PendingTransaction) : json :=
  JObj (<["transactionId" := JStr (transactionId t)]>
       (<["patches" := JArr (json_of_patch <$> patches t)]>
       (<["inversePatches" := JArr (json_of_patch <$> inversePatches t)]> ∅))).

Definition transaction_of_json (j : json) : option PendingTransaction :=
  o ← as_object j;
  i ← get_string o "transactionId";
  l ← get_array o "patches";
  ps ← mapM patch_of_json l;
  r ← get_array o "inversePatches";
  qs ← mapM patch_of_json r;
  Some {| transactionId := i; patches := ps; inversePatches := qs |}.

(** Reads every entry of an object, or fails if one entry does not read. *)
Definition read_map {A} (f : json → option A) (o : gmap string json)
    : option (gmap string A) :=
  if decide (map_Forall (λ _ v, is_Some (f v)) o) then Some (omap f o) else None.

Definition json_of_models (m : gmap string (gmap string json)) : json :=
  JObj (JObj <$> m).

Definition models_of_json (j : json) : option (gmap string (gmap string json)) :=
  o ← as_object j; read_map as_object o.

Definition json_of_entity (e : ParsedEntity) : json :=
  JObj (<["entityId" := JStr (entityId e)]>
       (<["models" := json_of_models (models e)]> ∅)).

Definition entity_of_json (j : json) : option ParsedEntity :=
  o ← as_object j;
  i ← get_string o "entityId";
  c ← o !! "models";
  m ← models_of_json c;
  Some {| entityId := i; models := m |}.

Definition state_object (s : GameState) : gmap string json :=
  <["entities" := JObj (json_of_entity <$> entities s)]>
    (<["pendingTransactions" :=
         JObj (json_of_transaction <$> pendingTransactions s)]> ∅).

Definition json_of_state (s : GameState) : json := JObj (state_object s).

(** A tree is read back as a [GameState] only when it is exactly the
    image of one: a tree with a missing or foreign property has left the
    type and is refused. *)
Definition state_of_json (j : json) : option GameState :=
  o ← as_object j;
  e ← get_object o "entities";
  es ← read_map entity_of_json e;
  t ← get_object o "pendingTransactions";
  ts ← read_map transaction_of_json t;
  let s := {| entities := es; pendingTransactions := ts |} in
  if decide (json_of_state s = j) then Some s else None.

(** ** immer: applying patches

    [svelte.ts] imports [produce], [produceWithPatches] and
    [applyPatches] from immer; the library is a dependency of the
    package and its code is not part of it.  Its patch support is taken
    as enabled: [svelte.ts] itself never calls [enablePatches()], so
    some other module of the application has to. *)

(** The property [k] of an object set to [r], or deleted for [None]. *)
Definition set_slot (k : string) (r : option json) (o : gmap string json)
    : gmap string json :=
  partial_alter (λ _, r) k o.

(** Modelled from the spec: one structural operation, "add/replace/remove
    at a path within the Cache State".  As immer's [applyPatches_] does,
    [apply_at p o v slot] walks the property path [p] from the value in
    [slot], where every value walked through must be an object, and at
    the end of the path assigns ([replace], [add]: [base[key] = value])
    or deletes ([remove]: [delete base[key]]).  The result is the new
    content of the slot, [None] for a deleted property, or an outer
    [None] when immer throws because the path does not resolve.  Arrays
    are leaves of the trees of this store: a path never walks into
    one. *)
Fixpoint apply_at (p : list string) (o : PatchOp) (v : option json)
    (slot : option json) : option (option json) :=
  match p with
  | [] =>
      match o with
      | Remove => Some None
      | Replace | Add => Some (Some (default JUndefined v))
      end
  | k :: rest =>
      match slot with
      | Some (JObj c) =>
          r ← apply_at rest o v (c !! k);
          Some (Some (JObj (set_slot k r c)))
      | _ => None
      end
  end.

(** The patches of a list, one after the other, on a slot; the reading
    of a script that the lemmas work with. *)
Fixpoint apply_list (ps : list Patch) (slot : option json)
    : option (option json) :=
  match ps with
  | [] => Some slot
  | p :: rest =>
      s ← apply_at (path p) (op p) (value p) slot;
      apply_list rest s
  end.

(** immer's [applyPatches_] refuses a patch whose path passes through a
    property named [__proto__] or [constructor] ("Patching reserved
    attributes like __proto__, prototype and constructor is not
    allowed"). *)
Definition reserved (k : string) : bool :=
  bool_decide (k = "__proto__") || bool_decide (k = "constructor").

Definition passes_reserved (p : list string) : bool :=
  existsb reserved (removelast p).

(** Whether a patch assigns to the property [__proto__]: the assignment
    [base[key] = value] at the end of its path is then a write to the
    setter that [Object.prototype] has under that name. *)
Definition assigns_proto (p : Patch) : bool :=
  bool_decide (last (path p) = Some "__proto__")
  && negb (bool_decide (op p = Remove)).

(** Whether the setter of [__proto__] ignores a value: it acts on an
    object (an array is one) and on [null] only. *)
Definition is_primitive (v : json) : bool :=
  match v with
  | JUndefined | JBool _ | JNum _ | JStr _ => true
  | JNull | JArr _ | JObj _ => false
  end.

(** One patch on the draft of the root.  A patch with an empty path
    reaches this point only as an [add] or a [remove], to which immer
    gives no useful meaning (it addresses the property named
    [undefined]); the model refuses it.  An assignment to [__proto__]
    walks the path and then leaves the draft as it is for a primitive
    value, and throws for another one, as a draft refuses to change its
    prototype. *)
Definition applyPatch (draft : json) (p : Patch) : option json :=
  match path p with
  | [] => None
  | _ :: _ =>
      if passes_reserved (path p) then None
      else if assigns_proto p then
        match apply_at (path p) Remove None (Some draft) with
        | Some _ =>
            if is_primitive (default JUndefined (value p)) then Some draft
            else None
        | None => None
        end
      else
        match apply_at (path p) (op p) (value p) (Some draft) with
        | Some (Some d) => Some d
        | _ => None
        end
  end.

(** Modelled from the spec: "an ordered sequence of structural
    operations", applied in order to a draft of the root, as immer's
    [applyPatches_] does. *)
Fixpoint applyPatches_ (draft : json) (ps : list Patch) : option json :=
  match ps with
  | [] => Some draft
  | p :: rest => d ← applyPatch draft p; applyPatches_ d rest
  end.

(** A path that passes through no reserved property and does not end
    in [__proto__], and a script of patches with such paths. *)
Definition safePath (p : list string) : bool :=
  negb (passes_reserved p) && negb (bool_decide (last p = Some "__proto__")).

Definition safeScript (ps : list Patch) : bool :=
  forallb (λ p, safePath (path p)) ps.

Definition is_root_replace (p : Patch) : bool :=
  bool_decide (path p = [] ∧ op p = Replace).

(** immer: "If a patch replaces the entire state, take that replacement
    as base before applying patches": the last such patch gives the
    base, and the patches after it are applied. *)
Fixpoint last_root_replace (base : json) (ps : list Patch)
    : json * list Patch :=
  match ps with
  | [] => (base, [])
  | p :: rest =>
      if existsb is_root_replace rest then last_root_replace base rest
      else if is_root_replace p then (default JUndefined (value p), rest)
      else (base, p :: rest)
  end.

Definition applyPatches_json (base : json) (ps : list Patch) : option json :=
  let '(b, qs) := last_root_replace base ps in applyPatches_ b qs.

(** Modelled from the spec: "apply [inversePatches] to the current Cache
    State, producing a new state".  The patches run on the tree of the
    state, and the patched tree is read back.  [None] stands for an
    exception of immer, or for a tree that is no [GameState] any more. *)
Definition applyPatches (base : GameState) (ps : list Patch)
    : option GameState :=
  j ← applyPatches_json (json_of_state base) ps;
  state_of_json j.

(** ** immer: producing patches

    immer reports, for every object of the draft that the recipe
    changed, the properties added ([add]), deleted ([remove]) and
    assigned ([replace]); the inverse script mirrors it ([remove],
    [add] and [replace] with the original value). *)

(** A patch moved under the property [k]. *)
Definition prefix (k : string) (p : Patch) : Patch :=
  {| op := op p; path := k :: path p; value := value p |}.

(** Modelled from the spec: "a patch/edit script ... sufficient to
    reconstruct the post-state from the pre-state ([patches]) or the
    pre-state from the post-state ([inversePatches])", computed "from a
    single diff of draft-vs-original".  [generatePatches d a b] is the
    script that turns the content [a] of a slot into [b]: nothing where
    they agree, [add] or [remove] where one of them is missing, the
    scripts of the properties where both are objects that differ, and a
    [replace] otherwise.  It descends at most [d] objects. *)
Fixpoint generatePatches (d : nat) (a b : option json) : list Patch :=
  match a, b with
  | None, None => []
  | Some _, None => [ {| op := Remove; path := []; value := None |} ]
  | None, Some y => [ {| op := Add; path := []; value := Some y |} ]
  | Some x, Some y =>
      if decide (x = y) then []
      else
        match d, x, y with
        | S d', JObj ox, JObj oy =>
            concat ((λ k, prefix k <$> generatePatches d' (ox !! k) (oy !! k))
                      <$> elements (dom ox ∪ dom oy))
        | _, _, _ => [ {| op := Replace; path := []; value := Some y |} ]
        end
  end.

(** Modelled from the spec: "every mutation produces a new entity value,
    never mutates shared state in place".  immer's [produce] runs the
    recipe on a draft of [base] and returns the finished draft; the
    recipe is given as the function from the base to what it leaves in
    the draft, or [None] when it throws, in which case [produce] throws
    too. *)
Definition produce (base : GameState) (recipe : GameState → option GameState)
    : option GameState :=
  recipe base.

(** Modelled from the spec: "computes the new state, the forward patch
    script, and the inverse patch script from a single diff of
    draft-vs-original".  The recipe is a function on the state: what it
    leaves in the draft, or [None] when it throws, in which case
    [produceWithPatches] throws too.  The scripts descend as deep as the
    trees go. *)
Definition produceWithPatches (base : GameState)
    (recipe : GameState → option GameState)
    : option (GameState * list Patch * list Patch) :=
  next ← recipe base;
  let b := json_of_state base in
  let n := json_of_state next in
  let d := height b `max` height n in
  Some (next,
        generatePatches d (Some b) (Some n),
        generatePatches d (Some n) (Some b)).

(** ** svelte/store: a writable store

    [svelte.ts] keeps the state in a [writable] of svelte/store, which
    is a dependency of the package. *)

(** Modelled from the spec: "[subscribe(listener)]: registers [listener]
    to be invoked with every new Cache State snapshot"; "delivery order
    matches mutation order; no coalescing".  A computation on the store
    returns a value or throws ([None]), leaves a store value, and lists
    the snapshots it handed to the subscribers, oldest first. *)
Record Run (A : Type) := {
  result : option A;
  store : GameState;
  notified : list GameState
}.
Arguments result {A} _.
Arguments store {A} _.
Arguments notified {A} _.

Definition StoreM (A : Type) : Type := GameState → Run A.

Definition ret {A} (a : A) : StoreM A :=
  λ s, {| result := Some a; store := s; notified := [] |}.

Definition throw {A} : StoreM A :=
  λ s, {| result := None; store := s; notified := [] |}.

Definition bind {A B} (m : StoreM A) (k : A → StoreM B) : StoreM B :=
  λ s,
    let r := m s in
    match result r with
    | Some a =>
        let r' := k a (store r) in
        {| result := result r'; store := store r';
           notified := notified r ++ notified r' |}
    | None => {| result := None; store := store r; notified := notified r |}
    end.

Global Instance StoreM_ret : MRet StoreM := @ret.
Global Instance StoreM_bind : MBind StoreM := λ A B k m, bind m k.

(** [get(store)] reads the value and notifies nobody. *)
Definition get : StoreM GameState :=
  λ s, {| result := Some s; store := s; notified := [] |}.

(** Modelled from the spec: "all mutator operations replace it wholesale",
    with "a new Cache State snapshot and a change notification".
    [set] installs a value and notifies the subscribers of it: svelte
    compares with [safe_not_equal], for which no object equals another,
    so every [set] of a state notifies. *)
Definition set (v : GameState) : StoreM unit :=
  λ _, {| result := Some tt; store := v; notified := [v] |}.

(** [update(fn)] is [set(fn(value))]: when [fn] throws, nothing is
    installed and nobody is notified. *)
Definition update (fn : GameState → option GameState) : StoreM unit :=
  λ s, match fn s with Some v => set v s | None => throw s end.

(** ** Properties of plain objects

    The two mappings of the state are plain JavaScript objects: their
    keys are own properties, and their prototype is [Object.prototype].
    A read [o[k]] follows the prototype chain; a write [draft[k] = v]
    goes through immer's draft. *)

(** The names of the properties of [Object.prototype]. *)
Definition Object_prototype : list string :=
  [ "constructor"; "__defineGetter__"; "__defineSetter__"; "hasOwnProperty";
    "__lookupGetter__"; "__lookupSetter__"; "isPrototypeOf";
    "propertyIsEnumerable"; "toString"; "valueOf"; "__proto__";
    "toLocaleString" ].

(** What [o[k]] evaluates to: the own property, or else the property
    that [Object.prototype] has under that name (a function, or
    [Object.prototype] itself for [__proto__]: a truthy value that is
    none of the values of the mapping), or else [undefined]. *)
Inductive Property (A : Type) :=
  | Own (a : A)
  | Inherited
  | Undefined.
Arguments Own {A} _.
Arguments Inherited {A}.
Arguments Undefined {A}.

Definition getProperty {A} (o : gmap string A) (k : string) : Property A :=
  match o !! k with
  | Some a => Own a
  | None => if decide (k ∈ Object_prototype) then Inherited else Undefined
  end.

(** The own property, when the value is one. *)
Definition own {A} (v : Property A) : option A :=
  match v with Own a => Some a | Inherited | Undefined => None end.

(** [draft[k] = v] for an object [v]: the property is set, except that
    a write to [__proto__] reaches the setter that [Object.prototype]
    has under that name, which asks to change the prototype of the
    draft; immer's draft refuses that and throws. *)
Definition setProperty {A} (k : string) (v : A) (o : gmap string A)
    : option (gmap string A) :=
  if decide (k = "__proto__") then None else Some (<[k := v]> o).

(** ** The store operations ([svelte.ts], lines 55-221) *)

(** [draft.entities[entity.entityId] = entity] *)
Definition setEntity (draft : GameState) (entity : ParsedEntity)
    : option GameState :=
  es ← setProperty (entityId entity) entity (entities draft);
  Some {| entities := es; pendingTransactions := pendingTransactions draft |}.

(** [list.forEach(f)] in a recipe: the elements in order, up to the
    first one for which [f] throws. *)
Fixpoint forEach {A} (f : GameState → A → option GameState)
    (draft : GameState) (l : list A) : option GameState :=
  match l with
  | [] => Some draft
  | a :: rest => d ← f draft a; forEach f d rest
  end.

Definition setEntities (es : list ParsedEntity) : StoreM unit :=
  update (λ state, produce state (λ draft, forEach setEntity draft es)).

(** The body of the [forEach] over [Object.entries(entity.models)]:
    [Object.assign({}, mergedModels[namespace], namespaceModels)], where a
    namespace missing from [mergedModels] is first set to [{}].  The
    keys of [models] are the namespaces of the schema ([keyof T]) and
    those of a namespace its models; [mergedModels] is a plain object,
    not a draft. *)
Definition mergeNamespace (namespace : string)
    (namespaceModels : gmap string json)
    (mergedModels : gmap string (gmap string json))
    : gmap string (gmap string json) :=
  <[namespace := namespaceModels ∪ default ∅ (mergedModels !! namespace)]>
    mergedModels.

Definition mergeModels (existing incoming : gmap string (gmap string json))
    : gmap string (gmap string json) :=
  map_fold mergeNamespace existing incoming.

(** The models that [Object.assign({}, existingEntity.models)] starts
    from: a value inherited from [Object.prototype] has no [models]. *)
Definition modelsOf (existingEntity : Property ParsedEntity)
    : gmap string (gmap string json) :=
  match existingEntity with
  | Own e => models e
  | Inherited | Undefined => ∅
  end.

(** The guard [entity.entityId && draft.entities[entity.entityId] &&
    entity.models]: a missing or empty id, an id under which
    [draft.entities] reads as [undefined] and missing models all leave
    the draft as it is.  The read follows the prototype chain, so the
    guard also lets through an id that is no key of the cache but names
    a property of [Object.prototype]; the spread of such a value
    contributes nothing.  The entity assigned on line 105 gets its
    [entityId] from the update. *)
Definition updateEntity (entity : PartialEntity) : StoreM unit :=
  update (λ state, produce state (λ draft,
    match partial_entityId entity, partial_models entity with
    | Some id, Some ms =>
        if decide (id = "") then Some draft
        else
          match getProperty (entities draft) id with
          | Undefined => Some draft
          | existingEntity =>
              let mergedModels := mergeModels (modelsOf existingEntity) ms in
              setEntity draft {| entityId := id; models := mergedModels |}
          end
    | _, _ => Some draft
    end)).

(** [draft.pendingTransactions[transactionId] = {...}] *)
Definition recordTransaction (t : PendingTransaction) (draft : GameState)
    : option GameState :=
  ts ← setProperty (transactionId t) t (pendingTransactions draft);
  Some {| entities := entities draft; pendingTransactions := ts |}.

(** [delete draft.pendingTransactions[transactionId]] *)
Definition deleteTransaction (tid : string) (draft : GameState) : GameState :=
  {| entities := entities draft;
     pendingTransactions := delete tid (pendingTransactions draft) |}.

Definition applyOptimisticUpdate (tid : string)
    (updateFn : GameState → option GameState) : StoreM unit :=
  currentState ← get;
  match produceWithPatches currentState updateFn with
  | None => throw
  | Some (nextState, ps, ips) =>
      set nextState;;
      update (λ state, produce state
        (recordTransaction
           {| transactionId := tid; patches := ps; inversePatches := ips |}))
  end.

(** [currentState.pendingTransactions[transactionId]] follows the
    prototype chain: for an id that is no key of the ledger but names a
    property of [Object.prototype], [transaction] is that property, the
    test [if (transaction)] passes, [transaction.inversePatches] is
    [undefined], and [applyPatches] throws on it. *)
Definition revertOptimisticUpdate (tid : string) : StoreM unit :=
  currentState ← get;
  match getProperty (pendingTransactions currentState) tid with
  | Own transaction =>
      match applyPatches currentState (inversePatches transaction) with
      | Some newState =>
          set newState;;
          update (λ state, produce state
            (λ draft, Some (deleteTransaction tid draft)))
      | None => throw
      end
  | Inherited => throw
  | Undefined => mret tt
  end.

Definition confirmTransaction (tid : string) : StoreM unit :=
  update (λ state, produce state (λ draft, Some (deleteTransaction tid draft))).


(** [Object.values(state.entities)], filtered when a filter is given.
    The order in which JavaScript enumerates the keys is not modelled:
    the entities come in the order of the finite map. *)
Definition getEntities (filter : option (ParsedEntity → bool))
    : StoreM (list ParsedEntity) :=
  state ← get;
  let allEntities := (map_to_list (entities state)).*2 in
  mret (match filter with
        | Some f => List.filter f allEntities
        | None => allEntities
        end).

(** JavaScript's truthiness of a value. *)
Definition truthy (j : json) : bool :=
  match j with
  | JUndefined | JNull => false
  | JBool b => b
  | JNum n => negb (Z.eqb n 0)
  | JStr s => negb (String.eqb s "")
  | JArr _ | JObj _ => true
  end.

Definition getEntitiesByModel (namespace model : string)
    : StoreM (list ParsedEntity) :=
  getEntities (Some (λ entity,
    match models entity !! namespace with
    | Some ms => match ms !! model with Some v => truthy v | None => false end
    | None => false
    end)).

(** The store value a computation leaves, started from [s]. *)
Definition exec {A} (m : StoreM A) (s : GameState) : GameState := store (m s).

(** [target.__proto__ = V], where [target] is a value of the draft: the
    write reaches the setter that [Object.prototype] has under that
    name.  On [undefined] and [null] the write throws.  On a primitive
    the setter does nothing.  On an object it ignores a primitive [V]
    and otherwise asks to change the prototype of the draft, which
    immer refuses; the draft of an array refuses every property that is
    no index. *)
Definition assignProto (target v : json) (draft : GameState)
    : option GameState :=
  match target with
  | JUndefined | JNull => None
  | JBool _ | JNum _ | JStr _ => Some draft
  | JArr _ => None
  | JObj _ => if is_primitive v then Some draft else None
  end.

(** The recipe [draft => { draft.entities[id].models.NS.M.field = V }],
    for a namespace [NS] and a model [M] of the schema.  It throws when
    the entity, the namespace or the model is missing (a value that
    [draft.entities[id]] inherits from [Object.prototype] has no
    [models]), and for a field other than [__proto__] when the model is
    no object (a property cannot be created on a primitive, and the
    draft of an array refuses it); otherwise the field is set. *)
Definition assignField (id ns m field : string) (v : json)
    (draft : GameState) : option GameState :=
  e ← own (getProperty (entities draft) id);
  nsModels ← models e !! ns;
  target ← nsModels !! m;
  if decide (field = "__proto__") then assignProto target v draft
  else
    fields ← as_object target;
    Some {| entities :=
              <[id := {| entityId := entityId e;
                         models := <[ns := <[m := JObj (<[field := v]> fields)]> nsModels]>
                                     (models e) |}]> (entities draft);
            pendingTransactions := pendingTransactions draft |}.

(** ** The waiter ([waitForEntityChange], lines 250-274)

    The promise, the listener registered with [subscribe] and the timer
    of one call.  [const unsubscribe] and [const timer] are bindings of
    the executor that the listener closes over; a [const] read before
    its declaration has run throws a [ReferenceError].  An exception of
    the executor rejects the promise.  Time is abstracted to the order
    of events: the notifications of the store and the firing of the
    timer. *)

Inductive WaitError :=
  | TimeoutExceeded (ms : nat)
  | ReferenceError (name : string).

Inductive Promise :=
  | Pending
  | Resolved (entity : Property ParsedEntity)
  | Rejected (e : WaitError).

Record Waiter := {
  promise : Promise;
  subscribed : bool;
  unsubscribe_bound : bool;
  timer_bound : bool;
  timer_armed : bool
}.

(** [resolve] and [reject] settle a pending promise and do nothing to a
    settled one. *)
Definition settle (p : Promise) (w : Waiter) : Waiter :=
  {| promise := match promise w with Pending => p | q => q end;
     subscribed := subscribed w;
     unsubscribe_bound := unsubscribe_bound w;
     timer_bound := timer_bound w;
     timer_armed := timer_armed w |}.

(** The listener of lines 256-263, run on a snapshot; the second
    component is the exception it throws, if any.  The entity is read
    with [state.entities[entityId]], which follows the prototype
    chain. *)
Definition listener (entityId : string)
    (predicate : Property ParsedEntity → bool)
    (state : GameState) (w : Waiter) : Waiter * option WaitError :=
  let entity := getProperty (entities state) entityId in
  if predicate entity then
    if timer_bound w then
      (* clearTimeout(timer) *)
      let w1 := {| promise := promise w; subscribed := subscribed w;
                   unsubscribe_bound := unsubscribe_bound w;
                   timer_bound := true; timer_armed := false |} in
      if unsubscribe_bound w1 then
        (* unsubscribe(); resolve(entity) *)
        let w2 := {| promise := promise w1; subscribed := false;
                     unsubscribe_bound := true;
                     timer_bound := true; timer_armed := false |} in
        (settle (Resolved entity) w2, None)
      else (w1, Some (ReferenceError "unsubscribe"))
    else (w, Some (ReferenceError "timer"))
  else (w, None).

(** Modelled from the spec: "[subscribe(listener) -> unsubscribe]:
    registers [listener] to be invoked with every new Cache State
    snapshot, starting from the current one".  svelte's [subscribe]
    adds the listener to the subscribers and calls it at once with the
    current value ([subscribers.add(subscriber); run(value)]), before
    it returns the [unsubscribe] handle. *)
Definition subscribe (run : GameState → Waiter → Waiter * option WaitError)
    (current : GameState) (w : Waiter) : Waiter * option WaitError :=
  run current
    {| promise := promise w; subscribed := true;
       unsubscribe_bound := unsubscribe_bound w;
       timer_bound := timer_bound w; timer_armed := timer_armed w |}.

(** The executor of the promise, run on the current store value:
    [const unsubscribe = subscribe(...)], then
    [const timer = setTimeout(...)].  When [subscribe] throws, the
    executor stops there and the promise is rejected with the error. *)
Definition waitForEntityChange (entityId : string)
    (predicate : Property ParsedEntity → bool) (current : GameState) : Waiter :=
  let w0 := {| promise := Pending; subscribed := false;
               unsubscribe_bound := false;
               timer_bound := false; timer_armed := false |} in
  match subscribe (listener entityId predicate) current w0 with
  | (w1, Some e) => settle (Rejected e) w1
  | (w1, None) =>
      {| promise := promise w1; subscribed := subscribed w1;
         unsubscribe_bound := true;
         timer_bound := true; timer_armed := true |}
  end.

(** The store notifies its subscribers of a snapshot. *)
Definition notify (entityId : string) (predicate : Property ParsedEntity → bool)
    (state : GameState) (w : Waiter) : Waiter * option WaitError :=
  if subscribed w then listener entityId predicate state w else (w, None).

(** The timer fires (lines 265-272), unless it was cleared. *)
Definition timer_fires (timeout : nat) (w : Waiter) : Waiter :=
  if timer_armed w then
    settle (Rejected (TimeoutExceeded timeout))
      {| promise := promise w; subscribed := false;
         unsubscribe_bound := unsubscribe_bound w;
         timer_bound := timer_bound w; timer_armed := false |}
  else w.

(** The snapshots of a list, delivered in order. *)
Definition deliver (entityId : string) (predicate : Property ParsedEntity → bool)
    (states : list GameState) (w : Waiter) : Waiter :=
  foldl (λ w s, (notify entityId predicate s w).1) w states.

(** ** Reading the state

    Accessors used to state the lemmas. *)

(** The model stored under a namespace and a model name. *)
Definition model_at (ms : gmap string (gmap string json)) (ns m : string)
    : option json :=
  ms !! ns ≫= λ nsModels, nsModels !! m.

(** The cache with an entity stored under its id. *)
Definition insertEntity (draft : GameState) (entity : ParsedEntity) : GameState :=
  {| entities := <[entityId entity := entity]> (entities draft);
     pendingTransactions := pendingTransactions draft |}.

(** The ledger with a record stored under its transaction id. *)
Definition insertTransaction (t : PendingTransaction) (draft : GameState)
    : GameState :=
  {| entities := entities draft;
     pendingTransactions := <[transactionId t := t]> (pendingTransactions draft) |}.

(** The record that [applyOptimisticUpdate] writes when the recipe turns
    [base] into [next]. *)
Definition ledgerRecord (tid : string) (base next : GameState)
    : PendingTransaction :=
  let b := json_of_state base in
  let n := json_of_state next in
  let d := height b `max` height n in
  {| transactionId := tid;
     patches := generatePatches d (Some b) (Some n);
     inversePatches := generatePatches d (Some n) (Some b) |}.

(** The value of a field of a model of an entity. *)
Definition readField (e : ParsedEntity) (ns m field : string) : option json :=
  match model_at (models e) ns m with
  | Some (JObj fields) => fields !! field
  | _ => None
  end.

(** ** A worked scenario

    The scenario of the example application ([spawn] in
    [session.svelte]): a cache seeded with one entity whose model
    [dojo_starter.Moves] has [remaining = 0], and the optimistic update
    [tx1] that sets [remaining] to [100]. *)

Definition moves (remaining : Z) : gmap string (gmap string json) :=
  {[ "dojo_starter" := {[ "Moves" := JObj {[ "remaining" := JNum remaining ]} ]} ]}.

Definition player (remaining : Z) : ParsedEntity :=
  {| entityId := "0x1"; models := moves remaining |}.

Definition seeded : GameState :=
  {| entities := {[ "0x1" := player 0 ]}; pendingTransactions := ∅ |}.

Definition spawned : GameState :=
  {| entities := {[ "0x1" := player 100 ]}; pendingTransactions := ∅ |}.

Definition setRemaining (n : Z) : GameState → option GameState :=
  assignField "0x1" "dojo_starter" "Moves" "remaining" (JNum n).

Definition optimistic : GameState :=
  insertTransaction (ledgerRecord "tx1" seeded spawned) spawned.

(** [entity => entity?.models?.dojo_starter?.Moves?.remaining === n];
    a value inherited from [Object.prototype] has no [models]. *)
Definition remainingIs (n : Z) (entity : Property ParsedEntity) : bool :=
  match entity with
  | Own e =>
      bool_decide (readField e "dojo_starter" "Moves" "remaining" = Some (JNum n))
  | Inherited | Undefined => false
  end.

(** Stored models [{A: {M1: 1, M2: 2}, B: {M3: 3}}] and the update
    [{A: {M1: 9}}]. *)
Definition storedAB : ParsedEntity :=
  {| entityId := "0x1";
     models := {[ "A" := {[ "M1" := JNum 1; "M2" := JNum 2 ]};
                  "B" := {[ "M3" := JNum 3 ]} ]} |}.

Definition twoNamespaces : GameState :=
  {| entities := {[ "0x1" := storedAB ]}; pendingTransactions := ∅ |}.

Definition updateOfA : PartialEntity :=
  {| partial_entityId := Some "0x1";
     partial_models := Some {[ "A" := {[ "M1" := JNum 9 ]} ]} |}.

(** An update for an entity that the seeded cache does not hold, one
    whose id names a property of [Object.prototype], and an entity
    whose id is [__proto__]. *)
Definition stranger : ParsedEntity :=
  {| entityId := "0x2"; models := moves 5 |}.

Definition updateOfStranger : PartialEntity :=
  {| partial_entityId := Some "0x2"; partial_models := Some (moves 5) |}.

Definition updateOfToString : PartialEntity :=
  {| partial_entityId := Some "toString"; partial_models := Some (moves 5) |}.

Definition protoEntity : ParsedEntity :=
  {| entityId := "__proto__"; models := moves 1 |}.

(** A cache whose one entity has the id [constructor], and the
    optimistic update of its [remaining]. *)
Definition constructorCache : GameState :=
  {| entities := {[ "constructor" := {| entityId := "constructor";
                                        models := moves 0 |} ]};
     pendingTransactions := ∅ |}.

Definition setRemainingOfConstructor (n : Z) : GameState → option GameState :=
  assignField "constructor" "dojo_starter" "Moves" "remaining" (JNum n).

(** The state of the scenario after the optimistic update, once the
    player's entity has been replaced by one without models. *)
Definition stale : GameState :=
  insertEntity optimistic {| entityId := "0x1"; models := ∅ |}.

(** ** The entity view ([subscribeToEntity], lines 230-240) *)

(** Modelled from the spec: the "derived-view helper that maps a
    subscription to a narrower slice of state, recomputing the slice on
    every base notification".  svelte's [derived] store installs the
    recomputed slice with the same [set] as a writable, which compares
    the value it holds with the new one by [safe_not_equal]: an object
    or a function never equals anything, [undefined] equals
    [undefined]. *)
Definition safe_not_equal (a b : Property ParsedEntity) : bool :=
  match a, b with
  | Undefined, Undefined => false
  | _, _ => true
  end.

(** The values that the derived store hands to its listener while the
    base store goes through [snapshots], given the value it holds. *)
Fixpoint derivedEntity (entityId : string) (held : Property ParsedEntity)
    (snapshots : list GameState) : list (Property ParsedEntity) :=
  match snapshots with
  | [] => []
  | s :: rest =>
      let v := getProperty (entities s) entityId in
      if safe_not_equal held v then v :: derivedEntity entityId v rest
      else derivedEntity entityId held rest
  end.

(** [derived(store, $store => $store.entities[entityId]).subscribe(listener)]:
    the calls of the listener, first with the slice of the current
    value, as [subscribe] does, then as the base store notifies. *)
Definition subscribeToEntity (entityId : string) (current : GameState)
    (snapshots : list GameState) : list (Property ParsedEntity) :=
  let v := getProperty (entities current) entityId in
  v :: derivedEntity entityId v snapshots.

(** ** The callers of the example ([session.svelte]) *)

(** The response that the indexer client hands to a callback:
    [{ error?, data? }]. *)
Record Response := {
  error : bool;
  data : option (list ParsedEntity)
}.

(** An entity passed where a partial entity is expected. *)
Definition asPartial (e : ParsedEntity) : PartialEntity :=
  {| partial_entityId := Some (entityId e); partial_models := Some (models e) |}.

(** The callback of the entity subscription (lines 78-91): an error is
    logged; otherwise, when there is data and the id of its first
    entity is not ["0x0"], that entity is merged.  [response.data[0]] of
    an empty array is [undefined], and reading its [entityId] throws. *)
Definition onEntityUpdate (response : Response) : StoreM unit :=
  if error response then mret tt
  else
    match data response with
    | Some (first :: _) =>
        if decide (entityId first = "0x0") then mret tt
        else updateEntity (asPartial first)
    | Some [] => throw
    | None => mret tt
    end.

(** The callback of the initial fetch (lines 109-120). *)
Definition onInitialFetch (resp : Response) : StoreM unit :=
  if error resp then mret tt
  else
    match data resp with
    | Some es => setEntities es
    | None => mret tt
    end.

(** The subscription reports an entity that the seeded cache does not
    hold. *)
Definition strangerArrives : Response :=
  {| error := false; data := Some [stranger] |}.

(** The recipe of [spawn] (lines 358-363):
    [if (draft.entities[entityId]?.models?.dojo_starter?.Moves)
       draft.entities[entityId].models.dojo_starter.Moves.remaining = remainingMoves].
    A truthy model that is no object makes the assignment throw (for an
    array, as [assignField] has it, in immer's development build).  A
    value inherited from [Object.prototype] has no [models]. *)
Definition spawnRecipe (entityId : string) (remainingMoves : Z)
    (draft : GameState) : option GameState :=
  match getProperty (entities draft) entityId with
  | Own e =>
      match model_at (models e) "dojo_starter" "Moves" with
      | Some mv =>
          if truthy mv
          then assignField entityId "dojo_starter" "Moves" "remaining"
                 (JNum remainingMoves) draft
          else Some draft
      | None => Some draft
      end
  | Inherited | Undefined => Some draft
  end.

(** [try { body } finally { finalizer }]: the finalizer runs whether or
    not the body threw; the statement throws when either does. *)
Definition tryFinally {A} (body : StoreM A) (finalizer : StoreM unit)
    : StoreM A :=
  λ s,
    let r := body s in
    let r' := finalizer (store r) in
    {| result := match result r' with Some _ => result r | None => None end;
       store := store r';
       notified := notified r ++ notified r' |}.

(** The [catch] and [finally] blocks of [spawn] (lines 376-384), run
    when the [try] block has ended, with an exception or without:
    [catch (error) { revertOptimisticUpdate(transactionId); throw error }
     finally { confirmTransaction(transactionId) }]. *)
Definition spawnSettle (tid : string) (tryThrew : bool) : StoreM unit :=
  tryFinally
    (if tryThrew then revertOptimisticUpdate tid ;; throw else mret tt)
    (confirmTransaction tid).

(** ** Reading the state, continued *)

(** Every entity is stored under its own id, and every ledger record
    under its own transaction id. *)
Definition keyed (s : GameState) : Prop :=
  (∀ id e, entities s !! id = Some e → entityId e = id)
  ∧ (∀ tid t, pendingTransactions s !! tid = Some t → transactionId t = tid).

Definition is_object (j : json) : bool :=
  match j with JObj _ => true | _ => false end.

Definition is_array (j : json) : bool :=
  match j with JArr _ => true | _ => false end.

(** The path of a field of a model of an entity in the state. *)
Definition fieldPath (id ns m field : string) : list string :=
  ["entities"; id; "models"; ns; m; field].

(** The field of a model of an entity in the state: its content, or
    [None] when the entity, the namespace, the model or the field is
    missing or the model is no object. *)
Definition fieldOf (s : GameState) (id ns m field : string) : option json :=
  e ← entities s !! id; readField e ns m field.

(** The state with the field of a model of an entity set to [w], or
    deleted for [None]; no state when the entity, the namespace or the
    model is missing or the model is no object. *)
Definition resetField (id ns m field : string) (w : option json)
    (s : GameState) : option GameState :=
  e ← entities s !! id;
  nsModels ← models e !! ns;
  fields ← nsModels !! m ≫= as_object;
  Some {| entities :=
            <[id := {| entityId := entityId e;
                       models := <[ns := <[m := JObj (set_slot field w fields)]> nsModels]>
                                   (models e) |}]> (entities s);
          pendingTransactions := pendingTransactions s |}.

(** ** Paths in a tree

    What a path addresses in a tree, and the tree with the slot at a
    path changed; used to describe the scripts of an assignment to a
    single field. *)

(** The content of the slot at a path, or no slot when a value on the
    way is missing or is no object. *)
Fixpoint sub (p : list string) (x : option json) : option (option json) :=
  match p with
  | [] => Some x
  | k :: rest =>
      match x with
      | Some (JObj o) => sub rest (o !! k)
      | _ => None
      end
  end.

(** The tree with the slot at a path set to [w]; unchanged when the
    path does not resolve. *)
Fixpoint graft (p : list string) (w : option json) (x : option json)
    : option json :=
  match p with
  | [] => w
  | k :: rest =>
      match x with
      | Some (JObj o) => Some (JObj (set_slot k (graft rest w (o !! k)) o))
      | _ => x
      end
  end.

(** A script moved under a path. *)
Definition patchAt (p : list string) (ps : list Patch) : list Patch :=
  foldr (λ k qs, prefix k <$> qs) ps p.

(** What an operation leaves in the slot it addresses. *)
Definition leaf_result (o : PatchOp) (v : option json) : option json :=
  match o with
  | Remove => None
  | Replace | Add => Some (default JUndefined v)
  end.

(** The patch that sets a slot holding [old] to [new], and its
    inverse, as immer reports an assignment: [add] and [remove] for a
    property that was not there, [replace] and [replace] otherwise. *)
Definition assignPatch (p : list string) (old : option json) (new : json)
    : Patch :=
  {| op := match old with Some _ => Replace | None => Add end;
     path := p; value := Some new |}.

Definition restorePatch (p : list string) (old : option json) : Patch :=
  match old with
  | Some o => {| op := Replace; path := p; value := Some o |}
  | None => {| op := Remove; path := p; value := None |}
  end.

(** * Lemmas *)

(** ** The JSON image reads back *)

Lemma op_of_name_op_name k : op_of_name (op_name k) = Some k.
Proof. by destruct k. Qed.

Lemma mapM_as_string l : mapM as_string (JStr <$> l) = Some l.
Proof. by apply mapM_fmap_Some. Qed.

(** Lookups of literal keys in maps built by insertion. *)
Ltac lookup_literal :=
  repeat first
    [ rewrite lookup_insert_eq
    | rewrite lookup_insert_ne by done
    | rewrite lookup_singleton_eq
    | rewrite lookup_empty ].

Lemma patch_of_json_of_patch p : patch_of_json (json_of_patch p) = Some p.
Proof.
  destruct p as [k l v]. unfold patch_of_json, json_of_patch. simpl.
  unfold get_string, get_array. lookup_literal. simpl.
  rewrite op_of_name_op_name. simpl. rewrite mapM_as_string. simpl.
  destruct v; by lookup_literal.
Qed.

Lemma mapM_patch_of_json l : mapM patch_of_json (json_of_patch <$> l) = Some l.
Proof. apply mapM_fmap_Some. intros p. apply patch_of_json_of_patch. Qed.

Lemma transaction_of_json_of_transaction t :
  transaction_of_json (json_of_transaction t) = Some t.
Proof.
  destruct t as [i ps qs]. unfold transaction_of_json, json_of_transaction.
  simpl. unfold get_string, get_array. lookup_literal. simpl.
  by rewrite !mapM_patch_of_json.
Qed.

Lemma read_map_fmap {A} (f : json → option A) (g : A → json) (m : gmap string A) :
  (∀ a, f (g a) = Some a) → read_map f (g <$> m) = Some m.
Proof.
  intros Hfg. unfold read_map. rewrite decide_True.
  - f_equal. apply map_eq. intros i.
    rewrite lookup_omap, lookup_fmap. destruct (m !! i); simpl; [apply Hfg|done].
  - apply map_Forall_fmap. intros i a _. simpl. rewrite Hfg. eauto.
Qed.

Lemma models_of_json_of_models m : models_of_json (json_of_models m) = Some m.
Proof. unfold models_of_json, json_of_models. simpl. by apply read_map_fmap. Qed.

Lemma entity_of_json_of_entity e : entity_of_json (json_of_entity e) = Some e.
Proof.
  destruct e as [i m]. unfold entity_of_json, json_of_entity. simpl.
  unfold get_string. lookup_literal. simpl.
  by rewrite models_of_json_of_models.
Qed.

Lemma state_of_json_of_state s : state_of_json (json_of_state s) = Some s.
Proof.
  destruct s as [es ts]. unfold state_of_json. unfold json_of_state at 1.
  simpl. unfold get_object, state_object. lookup_literal. simpl.
  rewrite (read_map_fmap _ _ _ entity_of_json_of_entity). simpl.
  rewrite (read_map_fmap _ _ _ transaction_of_json_of_transaction). simpl.
  by rewrite decide_True.
Qed.

Lemma json_of_state_inj s1 s2 : json_of_state s1 = json_of_state s2 → s1 = s2.
Proof.
  intros H. apply (f_equal state_of_json) in H.
  rewrite !state_of_json_of_state in H. congruence.
Qed.

(** ** Patches on a slot *)

Lemma lookup_set_slot_eq k r (o : gmap string json) : set_slot k r o !! k = r.
Proof. unfold set_slot. by rewrite lookup_partial_alter_eq. Qed.

Lemma lookup_set_slot_ne k j r (o : gmap string json) :
  k ≠ j → set_slot k r o !! j = o !! j.
Proof. intros. unfold set_slot. by rewrite lookup_partial_alter_ne. Qed.

Lemma set_slot_self k (o : gmap string json) : set_slot k (o !! k) o = o.
Proof. apply partial_alter_self. Qed.

Lemma set_slot_set_slot k r1 r2 (o : gmap string json) :
  set_slot k r2 (set_slot k r1 o) = set_slot k r2 o.
Proof. unfold set_slot. by rewrite partial_alter_partial_alter_eq. Qed.

Lemma apply_list_app ps qs s :
  apply_list (ps ++ qs) s = apply_list ps s ≫= apply_list qs.
Proof.
  revert s. induction ps as [|p ps IH]; intros s; simpl; [done|].
  destruct (apply_at (path p) (op p) (value p) s); simpl; [apply IH|done].
Qed.

(** Patches under the property [k] of an object act on the slot of [k]
    and leave the other properties alone. *)
Lemma apply_list_prefix k ps (o : gmap string json) :
  apply_list (prefix k <$> ps) (Some (JObj o)) =
  r ← apply_list ps (o !! k); Some (Some (JObj (set_slot k r o))).
Proof.
  revert o. induction ps as [|p ps IH]; intros o; simpl.
  - by rewrite set_slot_self.
  - destruct (apply_at (path p) (op p) (value p) (o !! k)) as [r|]; simpl; [|done].
    rewrite IH, lookup_set_slot_eq.
    destruct (apply_list ps r); simpl; [|done].
    by rewrite set_slot_set_slot.
Qed.

(** The scripts of several properties, one property after the other. *)
Lemma apply_groups (P : string → list Patch) (R : string → option json)
    (ks : list string) (o : gmap string json) :
  NoDup ks →
  (∀ k, k ∈ ks → apply_list (P k) (o !! k) = Some (R k)) →
  ∃ o', apply_list (concat ((λ k, prefix k <$> P k) <$> ks)) (Some (JObj o))
          = Some (Some (JObj o'))
        ∧ ∀ k, o' !! k = if decide (k ∈ ks) then R k else o !! k.
Proof.
  revert o. induction ks as [|k ks IH]; intros o Hnd HP; simpl.
  - by exists o.
  - apply NoDup_cons in Hnd as [Hk Hnd].
    rewrite apply_list_app, apply_list_prefix, HP by set_solver. simpl.
    destruct (IH (set_slot k (R k) o) Hnd) as (o' & Ho' & Hl).
    { intros j Hj. rewrite lookup_set_slot_ne by set_solver. apply HP. set_solver. }
    exists o'. split; [done|]. intros j. rewrite Hl.
    destruct (decide (j = k)) as [->|Hne].
    + rewrite decide_False, decide_True by set_solver.
      apply lookup_set_slot_eq.
    + rewrite lookup_set_slot_ne by done.
      destruct (decide (j ∈ ks)).
      * by rewrite decide_True by set_solver.
      * by rewrite decide_False by set_solver.
Qed.

(** The script that [generatePatches] gives for [a] and [b] turns [a]
    into [b], whatever the depth. *)
Lemma generatePatches_sound d a b :
  apply_list (generatePatches d a b) a = Some b.
Proof.
  revert a b. induction d as [|d IH]; intros [x|] [y|]; simpl; try done;
    case_decide; subst; try done.
  destruct x, y; try done.
  destruct (apply_groups (λ k, generatePatches d (o !! k) (o0 !! k))
              (λ k, o0 !! k) (elements (dom o ∪ dom o0)) o) as (o' & -> & Hl).
  { apply NoDup_elements. }
  { intros k _. apply IH. }
  do 3 f_equal. apply map_eq. intros k. rewrite Hl. case_decide as Hk; [done|].
  rewrite elem_of_elements, elem_of_union, !elem_of_dom in Hk.
  destruct (o !! k) eqn:?, (o0 !! k) eqn:?; try done; exfalso; apply Hk; eauto.
Qed.

Lemma apply_at_nonempty p o v s : p ≠ [] → apply_at p o v s ≠ Some None.
Proof.
  destruct p as [|k p]; [done|]. intros _. simpl.
  destruct s as [[]|]; try done.
  by destruct (apply_at p o v (o0 !! k)).
Qed.

Lemma last_root_replace_nonroot j ps :
  Forall (λ p, path p ≠ []) ps → last_root_replace j ps = (j, ps).
Proof.
  induction 1 as [|p ps Hp Hps IH]; simpl; [done|].
  assert (existsb is_root_replace ps = false) as ->.
  { clear IH. induction Hps as [|q qs Hq _ IHq]; simpl; [done|].
    rewrite IHq, orb_false_r. apply bool_decide_eq_false. naive_solver. }
  assert (is_root_replace p = false) as ->; [|done].
  apply bool_decide_eq_false. naive_solver.
Qed.

(** A patch with a safe path is the operation at its path. *)
Lemma applyPatch_safe j (p : Patch) :
  path p ≠ [] → safePath (path p) = true →
  applyPatch j p = apply_at (path p) (op p) (value p) (Some j) ≫= id.
Proof.
  intros Hne Hs. unfold applyPatch, assigns_proto.
  apply andb_true_iff in Hs as [Hp Hl]. apply negb_true_iff in Hp, Hl.
  rewrite Hp, Hl. cbn [andb].
  destruct (path p) as [|k rest]; [done|].
  by destruct (apply_at (k :: rest) (op p) (value p) (Some j)) as [[d|]|].
Qed.

(** A patch that does not end in [__proto__] is refused when its path
    passes through a reserved property, and is the operation at its
    path otherwise. *)
Lemma applyPatch_passes j (p : Patch) :
  path p ≠ [] → last (path p) ≠ Some "__proto__" →
  applyPatch j p =
    if passes_reserved (path p) then None
    else apply_at (path p) (op p) (value p) (Some j) ≫= id.
Proof.
  intros Hne Hl. unfold applyPatch, assigns_proto.
  rewrite (bool_decide_eq_false_2 _ Hl). cbn [andb].
  destruct (path p) as [|k rest]; [done|].
  destruct (passes_reserved (k :: rest)); [done|].
  by destruct (apply_at (k :: rest) (op p) (value p) (Some j)) as [[d|]|].
Qed.

Lemma safeScript_cons p ps :
  safeScript (p :: ps) = true ↔ safePath (path p) = true ∧ safeScript ps = true.
Proof. apply andb_true_iff. Qed.

Lemma applyPatches__nonroot j ps :
  Forall (λ p, path p ≠ []) ps →
  safeScript ps = true →
  applyPatches_ j ps = apply_list ps (Some j) ≫= id.
Proof.
  intros H. revert j. induction H as [|p ps Hp Hps IH]; intros j Hs; [done|].
  apply safeScript_cons in Hs as [Hsp Hsps]. cbn [applyPatches_ apply_list].
  rewrite (applyPatch_safe _ _ Hp Hsp).
  destruct (apply_at (path p) (op p) (value p) (Some j)) as [[d|]|] eqn:Hat;
    simpl; [by apply IH| |done].
  by apply apply_at_nonempty in Hat.
Qed.

(** On a script of [generatePatches] for two trees, immer's
    [applyPatches] is the script run on the root slot. *)
Lemma applyPatches_json_generate d x y j :
  safeScript (generatePatches d (Some x) (Some y)) = true →
  applyPatches_json j (generatePatches d (Some x) (Some y)) =
  apply_list (generatePatches d (Some x) (Some y)) (Some j) ≫= id.
Proof.
  unfold applyPatches_json.
  assert (∀ ps : list Patch, Forall (λ p, path p ≠ []) ps →
            safeScript ps = true →
            (let '(b, qs) := last_root_replace j ps in applyPatches_ b qs)
            = apply_list ps (Some j) ≫= id) as Hnr.
  { intros ps Hps Hs. rewrite last_root_replace_nonroot by done.
    by apply applyPatches__nonroot. }
  destruct d as [|d]; simpl; case_decide; try done.
  destruct x, y; try done.
  apply Hnr. apply Forall_concat, Forall_fmap, Forall_forall. intros k _.
  simpl. apply Forall_fmap, Forall_forall. by intros p _.
Qed.

Lemma generatePatches_same d x : generatePatches d (Some x) (Some x) = [].
Proof. destruct d; simpl; by rewrite decide_True. Qed.

Lemma generatePatches_flat x y :
  x ≠ y →
  generatePatches 0 (Some x) (Some y)
  = [ {| op := Replace; path := []; value := Some y |} ].
Proof. intros. simpl. by rewrite decide_False. Qed.

Lemma generatePatches_objects d (ox oy : gmap string json) :
  ox ≠ oy →
  generatePatches (S d) (Some (JObj ox)) (Some (JObj oy))
  = concat ((λ k, prefix k <$> generatePatches d (ox !! k) (oy !! k))
              <$> elements (dom ox ∪ dom oy)).
Proof. intros. simpl. rewrite decide_False; [done|congruence]. Qed.

Lemma applyPatches_generate d (a b : GameState) :
  safeScript
    (generatePatches d (Some (json_of_state a)) (Some (json_of_state b))) = true →
  applyPatches a (generatePatches d (Some (json_of_state a)) (Some (json_of_state b)))
  = Some b.
Proof.
  intros Hs. unfold applyPatches.
  rewrite applyPatches_json_generate, generatePatches_sound by done.
  simpl. apply state_of_json_of_state.
Qed.

(** The two scripts of [produceWithPatches] do what immer promises, as
    far as [applyPatches] accepts their paths: the patches turn the
    base into the next state, and the inverse patches turn the next
    state into the base. *)
Lemma produceWithPatches_sound (s n : GameState) recipe ps ips :
  produceWithPatches s recipe = Some (n, ps, ips) →
  recipe s = Some n
  ∧ (safeScript ps = true → applyPatches s ps = Some n)
  ∧ (safeScript ips = true → applyPatches n ips = Some s).
Proof.
  unfold produceWithPatches. destruct (recipe s) as [n'|]; [|done].
  cbn [mbind option_bind]. cbv zeta.
  set (d := height (json_of_state s) `max` height (json_of_state n')).
  intros H.
  assert (n' = n) as -> by congruence.
  assert (ps = generatePatches d (Some (json_of_state s)) (Some (json_of_state n)))
    as -> by congruence.
  assert (ips = generatePatches d (Some (json_of_state n)) (Some (json_of_state s)))
    as -> by congruence.
  split; [done|]. split; apply applyPatches_generate.
Qed.

(** ** The inverse script on a state that gained a ledger record

    [revertOptimisticUpdate] runs the inverse script not on the state
    that [produceWithPatches] returned but on that state with the
    record of the transaction added to the ledger.  The script still
    restores every property; at most the added record survives it. *)

Lemma generatePatches_ledger d (pn pb : gmap string json) tid rec :
  pb !! tid = None →
  ∃ r, apply_list (generatePatches d (Some (JObj pn)) (Some (JObj pb)))
         (Some (JObj (<[tid := rec]> pn))) = Some (Some (JObj r))
       ∧ (r = pb ∨ r = <[tid := rec]> pb).
Proof.
  intros Hb. destruct d as [|d]; simpl; case_decide as Heq;
    try (injection Heq as ->); eauto.
  destruct (apply_groups (λ k, generatePatches d (pn !! k) (pb !! k))
              (λ k, pb !! k) (elements (dom pn ∪ dom pb))
              (<[tid := rec]> pn)) as (o' & -> & Hl).
  { apply NoDup_elements. }
  { intros k Hk. destruct (decide (k = tid)) as [->|Hne].
    - rewrite lookup_insert_eq, Hb.
      rewrite elem_of_elements, elem_of_union, !elem_of_dom, Hb in Hk.
      destruct Hk as [[x Hx]|[? ?]]; [|done]. rewrite Hx.
      by destruct d.
    - rewrite lookup_insert_ne by done. apply generatePatches_sound. }
  exists o'. split; [done|].
  assert (∀ k, k ∉ elements (dom pn ∪ dom pb) → pn !! k = None ∧ pb !! k = None)
    as Hout.
  { intros k Hk. rewrite elem_of_elements, elem_of_union, !elem_of_dom in Hk.
    destruct (pn !! k) eqn:?, (pb !! k) eqn:?; try done; exfalso; apply Hk; eauto. }
  destruct (decide (tid ∈ elements (dom pn ∪ dom pb))) as [Hin|Hout'].
  - left. apply map_eq. intros k. rewrite Hl. case_decide as Hk; [done|].
    rewrite lookup_insert_ne by (intros ->; done).
    destruct (Hout k Hk) as [-> ->]. done.
  - right. apply map_eq. intros k. rewrite Hl.
    destruct (decide (k = tid)) as [->|Hne].
    + rewrite decide_False by done. by rewrite !lookup_insert_eq.
    + rewrite !lookup_insert_ne by done. case_decide as Hk; [done|].
      destruct (Hout k Hk) as [-> ->]. done.
Qed.

Lemma lookup_state_object s k :
  state_object s !! k =
    if decide (k = "entities") then Some (JObj (json_of_entity <$> entities s))
    else if decide (k = "pendingTransactions")
         then Some (JObj (json_of_transaction <$> pendingTransactions s))
         else None.
Proof.
  unfold state_object. repeat case_decide; subst; by lookup_literal.
Qed.

Lemma generatePatches_recorded d (n b : GameState) (t : PendingTransaction) :
  pendingTransactions b !! transactionId t = None →
  ∃ x, apply_list
         (generatePatches d (Some (json_of_state n)) (Some (json_of_state b)))
         (Some (json_of_state (insertTransaction t n)))
       = Some (Some (json_of_state x))
     ∧ entities x = entities b
     ∧ delete (transactionId t) (pendingTransactions x) = pendingTransactions b.
Proof.
  intros Hb. set (tid := transactionId t) in *.
  destruct (decide (n = b)) as [->|Hne].
  { rewrite generatePatches_same. exists (insertTransaction t b).
    split; [done|]. split; [done|]. simpl.
    by rewrite delete_insert_eq, delete_id. }
  assert (state_object n ≠ state_object b) as Hne'.
  { intros Heq. apply Hne, json_of_state_inj. unfold json_of_state. by f_equal. }
  destruct d as [|d].
  { unfold json_of_state at 1 2. rewrite generatePatches_flat by congruence.
    exists b. by rewrite delete_id. }
  unfold json_of_state at 1 2. rewrite generatePatches_objects by done.
  destruct (generatePatches_ledger d (json_of_transaction <$> pendingTransactions n)
              (json_of_transaction <$> pendingTransactions b) tid
              (json_of_transaction t)) as (r & Hr & Hcase).
  { by rewrite lookup_fmap, Hb. }
  assert (∃ x, entities x = entities b
             ∧ delete tid (pendingTransactions x) = pendingTransactions b
             ∧ r = json_of_transaction <$> pendingTransactions x)
    as (x & Hxe & Hxt & ->).
  { destruct Hcase as [->| ->].
    - exists b. by rewrite delete_id.
    - exists (insertTransaction t b). simpl.
      by rewrite delete_insert_eq, delete_id, fmap_insert. }
  exists x. split; [|done].
  destruct (apply_groups
      (λ k, generatePatches d (state_object n !! k) (state_object b !! k))
      (λ k, state_object x !! k)
      (elements (dom (state_object n) ∪ dom (state_object b)))
      (state_object (insertTransaction t n))) as (o' & Ho' & Hl).
  { apply NoDup_elements. }
  { intros k _. rewrite !lookup_state_object. repeat case_decide.
    - rewrite Hxe. apply generatePatches_sound.
    - simpl. by rewrite fmap_insert.
    - by destruct d. }
  unfold json_of_state. rewrite Ho'. do 3 f_equal.
  apply map_eq. intros k. rewrite Hl. case_decide as Hk; [done|].
  rewrite elem_of_elements, elem_of_union, !elem_of_dom in Hk.
  clear Ho' Hl Hr. rewrite !lookup_state_object.
  rewrite !lookup_state_object in Hk.
  destruct (decide (k = "entities")); [exfalso; apply Hk; eauto|].
  destruct (decide (k = "pendingTransactions")); [exfalso; apply Hk; eauto|].
  done.
Qed.

(** ** Reads and writes of properties *)

Lemma getProperty_Own {A} (o : gmap string A) k a :
  o !! k = Some a → getProperty o k = Own a.
Proof. unfold getProperty. by intros ->. Qed.

Lemma getProperty_Inherited {A} (o : gmap string A) k :
  o !! k = None → k ∈ Object_prototype → getProperty o k = Inherited.
Proof. unfold getProperty. intros -> Hk. by rewrite decide_True. Qed.

Lemma getProperty_Undefined {A} (o : gmap string A) k :
  o !! k = None → k ∉ Object_prototype → getProperty o k = Undefined.
Proof. unfold getProperty. intros -> Hk. by rewrite decide_False. Qed.

Lemma proto_in_Object_prototype : "__proto__" ∈ Object_prototype.
Proof. unfold Object_prototype. set_solver. Qed.

Lemma setProperty_Some {A} k (v : A) (o : gmap string A) :
  k ≠ "__proto__" → setProperty k v o = Some (<[k := v]> o).
Proof. intros Hk. unfold setProperty. by rewrite decide_False. Qed.

Lemma setProperty_proto {A} (v : A) (o : gmap string A) :
  setProperty "__proto__" v o = None.
Proof. done. Qed.

Lemma setEntity_insert (draft : GameState) e :
  entityId e ≠ "__proto__" → setEntity draft e = Some (insertEntity draft e).
Proof. intros He. unfold setEntity. by rewrite setProperty_Some. Qed.

Lemma setEntity_proto (draft : GameState) e :
  entityId e = "__proto__" → setEntity draft e = None.
Proof. intros He. unfold setEntity. by rewrite He. Qed.

Lemma recordTransaction_insert (draft : GameState) t :
  transactionId t ≠ "__proto__" →
  recordTransaction t draft = Some (insertTransaction t draft).
Proof. intros Ht. unfold recordTransaction. by rewrite setProperty_Some. Qed.

Lemma recordTransaction_proto (draft : GameState) t :
  transactionId t = "__proto__" → recordTransaction t draft = None.
Proof. intros Ht. unfold recordTransaction. by rewrite Ht. Qed.

(** ** The entity cache *)

Lemma lookup_foldl_insertEntity (es : list ParsedEntity) (s : GameState) id :
  entities (foldl insertEntity s es) !! id =
    match last (filter (λ e, entityId e = id) es) with
    | Some e => Some e
    | None => entities s !! id
    end.
Proof.
  revert s. induction es as [|e es IH]; intros s; simpl; [done|].
  rewrite IH, filter_cons. simpl.
  destruct (decide (entityId e = id)) as [<-|Hne].
  - rewrite lookup_insert_eq.
    destruct (filter (λ e0, entityId e0 = entityId e) es) as [|e' l] eqn:Hf;
      [done|].
    simpl. by destruct (last (e' :: l)) eqn:Hl; [|by apply last_None in Hl].
  - by rewrite lookup_insert_ne.
Qed.

Lemma pendingTransactions_foldl_insertEntity (es : list ParsedEntity) s :
  pendingTransactions (foldl insertEntity s es) = pendingTransactions s.
Proof. revert s. induction es as [|e es IH]; intros s; simpl; [done|]. by rewrite IH. Qed.

(** The loop of [setEntities] stops at the first entity whose id is
    [__proto__]. *)
Lemma forEach_setEntity (es : list ParsedEntity) (s : GameState) :
  forEach setEntity s es =
    if decide (Forall (λ e, entityId e ≠ "__proto__") es)
    then Some (foldl insertEntity s es) else None.
Proof.
  revert s. induction es as [|e es IH]; intros s; [done|].
  cbn [forEach foldl]. destruct (decide (entityId e = "__proto__")) as [He|He].
  - rewrite (setEntity_proto _ _ He). cbn. rewrite decide_False; [done|].
    by intros [? _]%Forall_cons.
  - rewrite (setEntity_insert _ _ He). cbn [mbind option_bind]. rewrite IH.
    destruct (decide (Forall (λ e0, entityId e0 ≠ "__proto__") es)) as [H|H].
    + rewrite decide_True; [done|]. by constructor.
    + rewrite decide_False; [done|]. by intros [_ ?]%Forall_cons.
Qed.

Lemma setEntities_returns (es : list ParsedEntity) (s : GameState) :
  Forall (λ e, entityId e ≠ "__proto__") es →
  setEntities es s =
  {| result := Some tt; store := foldl insertEntity s es;
     notified := [foldl insertEntity s es] |}.
Proof.
  intros H. unfold setEntities, update, produce.
  by rewrite forEach_setEntity, decide_True.
Qed.

Lemma setEntities_throws (es : list ParsedEntity) (s : GameState) :
  ¬ Forall (λ e, entityId e ≠ "__proto__") es →
  setEntities es s = {| result := None; store := s; notified := [] |}.
Proof.
  intros H. unfold setEntities, update, produce.
  by rewrite forEach_setEntity, decide_False.
Qed.

(** C9, as amended.  For a list in which no entity has the id
    [__proto__], [setEntities] returns; afterwards the slot of every id
    that the list refers to holds the incoming entity itself (the last
    one of the list with that id), whatever was stored there before,
    the slots of the other ids are as they were, and the ledger is
    untouched.  For a list in which an entity has the id [__proto__],
    [setEntities] throws, installs nothing and notifies nobody. *)
Theorem setEntities_overwrites (es : list ParsedEntity) (s : GameState) :
  (Forall (λ e, entityId e ≠ "__proto__") es →
     result (setEntities es s) = Some tt
     ∧ pendingTransactions (exec (setEntities es) s) = pendingTransactions s
     ∧ ∀ id, entities (exec (setEntities es) s) !! id =
               match last (filter (λ e, entityId e = id) es) with
               | Some e => Some e
               | None => entities s !! id
               end)
  ∧ (Exists (λ e, entityId e = "__proto__") es →
     setEntities es s = {| result := None; store := s; notified := [] |}).
Proof.
  split.
  - intros H. unfold exec. rewrite (setEntities_returns _ _ H). cbn [result store].
    split; [done|]. split.
    + apply pendingTransactions_foldl_insertEntity.
    + intros id. apply lookup_foldl_insertEntity.
  - intros H. apply setEntities_throws. intros HF.
    apply Exists_exists in H as (e & He & Hid).
    by apply (proj1 (Forall_forall _ _) HF e He).
Qed.

Lemma lookup_mergeModels (existing incoming : gmap string (gmap string json)) ns :
  mergeModels existing incoming !! ns =
    match incoming !! ns with
    | Some nsModels => Some (nsModels ∪ default ∅ (existing !! ns))
    | None => existing !! ns
    end.
Proof.
  unfold mergeModels. revert ns.
  apply (map_fold_weak_ind (λ r m, ∀ ns, r !! ns =
    match m !! ns with
    | Some nsModels => Some (nsModels ∪ default ∅ (existing !! ns))
    | None => existing !! ns
    end)).
  - intros ns. by rewrite lookup_empty.
  - intros i x m r Hi IH ns. unfold mergeNamespace.
    destruct (decide (i = ns)) as [->|Hne].
    + rewrite !lookup_insert_eq. by rewrite IH, Hi.
    + rewrite !lookup_insert_ne by done. apply IH.
Qed.

Lemma model_at_mergeModels existing incoming ns m :
  model_at (mergeModels existing incoming) ns m =
    match model_at incoming ns m with
    | Some v => Some v
    | None => model_at existing ns m
    end.
Proof.
  unfold model_at. rewrite lookup_mergeModels.
  destruct (incoming !! ns) as [nsModels|]; simpl; [|done].
  rewrite lookup_union. destruct (nsModels !! m), (existing !! ns) as [c|]; simpl;
    try done; try by destruct (c !! m).
Qed.

(** What [updateEntity] does, by what [draft.entities[id]] reads as. *)
Lemma updateEntity_run (u : PartialEntity) (s : GameState) :
  updateEntity u s =
    match partial_entityId u, partial_models u with
    | Some id, Some ms =>
        if decide (id = "") then
          {| result := Some tt; store := s; notified := [s] |}
        else
          match getProperty (entities s) id with
          | Undefined => {| result := Some tt; store := s; notified := [s] |}
          | existing =>
              if decide (id = "__proto__") then
                {| result := None; store := s; notified := [] |}
              else
                let s' := insertEntity s
                            {| entityId := id;
                               models := mergeModels (modelsOf existing) ms |} in
                {| result := Some tt; store := s'; notified := [s'] |}
          end
    | _, _ => {| result := Some tt; store := s; notified := [s] |}
    end.
Proof.
  unfold updateEntity, update, produce.
  destruct (partial_entityId u) as [id|]; [|done].
  destruct (partial_models u) as [ms|]; [|done].
  destruct (decide (id = "")); [done|].
  destruct (getProperty (entities s) id) as [ex| |]; [| |done];
    (destruct (decide (id = "__proto__")) as [->|Hp];
      [done|by rewrite setEntity_insert]).
Qed.

Lemma updateEntity_present id ms ex (s : GameState) :
  id ≠ "" → id ≠ "__proto__" → entities s !! id = Some ex →
  updateEntity {| partial_entityId := Some id; partial_models := Some ms |} s =
  let s' := {| entities :=
                 <[id := {| entityId := id;
                            models := mergeModels (models ex) ms |}]> (entities s);
               pendingTransactions := pendingTransactions s |} in
  {| result := Some tt; store := s'; notified := [s'] |}.
Proof.
  intros Hid Hp Hex. rewrite updateEntity_run. cbn [partial_entityId partial_models].
  by rewrite decide_False, (getProperty_Own _ _ _ Hex), decide_False.
Qed.

(** C3, as amended.  For an entity stored under a non-empty id,
    [updateEntity] returns and leaves under that id an entity whose
    models are the stored models overlaid with the incoming ones: every
    namespace -> model pair of the update replaces the stored model of
    that name wholesale; the models that the update does not mention,
    in a namespace of the update or in another one, stay as they were.
    So for stored models [{A: aVals, B: bVals}] and an update
    [{A: aVals2}] the result is [{A: aVals overlaid with aVals2, B: bVals}].
    The other entities and the ledger are untouched.  The one id for
    which this fails is [__proto__]: the draft refuses the write of the
    merged entity, so the call throws and installs nothing. *)
Theorem updateEntity_merges_models (s : GameState) (id : string)
    (ex : ParsedEntity) (ms : gmap string (gmap string json)) :
  id ≠ "" →
  entities s !! id = Some ex →
  let r := updateEntity {| partial_entityId := Some id; partial_models := Some ms |} s in
  (id = "__proto__" → r = {| result := None; store := s; notified := [] |})
  ∧ (id ≠ "__proto__" →
     result r = Some tt
     ∧ pendingTransactions (store r) = pendingTransactions s
     ∧ (∀ id', id' ≠ id → entities (store r) !! id' = entities s !! id')
     ∧ ∃ e', entities (store r) !! id = Some e'
         ∧ (∀ ns m, model_at (models e') ns m =
                      match model_at ms ns m with
                      | Some v => Some v
                      | None => model_at (models ex) ns m
                      end)
         ∧ (∀ ns, ms !! ns = None → models e' !! ns = models ex !! ns)
         ∧ (∀ A B aVals bVals aVals2,
              A ≠ B →
              models ex = {[ A := aVals; B := bVals ]} →
              ms = {[ A := aVals2 ]} →
              models e' = {[ A := aVals2 ∪ aVals; B := bVals ]})).
Proof.
  intros Hid Hex r. subst r. split.
  { intros ->. rewrite updateEntity_run. cbn [partial_entityId partial_models].
    by rewrite decide_False, (getProperty_Own _ _ _ Hex), decide_True. }
  intros Hp. rewrite (updateEntity_present _ _ _ _ Hid Hp Hex).
  simpl.
  split; [done|]. split; [done|]. split.
  { intros id' Hne. by rewrite lookup_insert_ne. }
  eexists. split; [apply lookup_insert_eq|]. simpl. split; [|split].
  - intros ns m. apply model_at_mergeModels.
  - intros ns Hns. by rewrite lookup_mergeModels, Hns.
  - intros A B aVals bVals aVals2 HAB -> ->. apply map_eq. intros ns.
    rewrite lookup_mergeModels.
    destruct (decide (ns = A)) as [->|HnA].
    + by rewrite !lookup_insert_eq, lookup_singleton_eq.
    + rewrite lookup_singleton_ne by done.
      by rewrite !lookup_insert_ne by done.
Qed.

Lemma updateEntity_undefined (u : PartialEntity) (s : GameState) :
  (∀ id, partial_entityId u = Some id → getProperty (entities s) id = Undefined) →
  updateEntity u s = {| result := Some tt; store := s; notified := [s] |}.
Proof.
  intros Habs. rewrite updateEntity_run.
  destruct (partial_entityId u) as [id|]; [|done].
  destruct (partial_models u); [|done].
  rewrite (Habs id eq_refl). by case_decide.
Qed.

(** C4, as amended.  An update whose id is no key of the cache and no
    name of a property of [Object.prototype] (or that has no id) is
    dropped: [updateEntity] returns, and the state it installs is the
    state it found. *)
Theorem updateEntity_absent_dropped (u : PartialEntity) (s : GameState) :
  (∀ id, partial_entityId u = Some id →
         entities s !! id = None ∧ id ∉ Object_prototype) →
  updateEntity u s = {| result := Some tt; store := s; notified := [s] |}.
Proof.
  intros Habs. apply updateEntity_undefined. intros id Hid.
  destruct (Habs id Hid) as [Hnone Hp]. by apply getProperty_Undefined.
Qed.

(** ** The ledger: confirm *)

(** C5.  [confirmTransaction] returns; the entities are the same
    mapping before and after (so [getEntities()] returns the same
    list), the entry of [tid] is gone from the ledger and every other
    entry is as it was. *)
Theorem confirmTransaction_keeps_entities (s : GameState) (tid : string) :
  let r := confirmTransaction tid s in
  result r = Some tt
  ∧ entities (store r) = entities s
  ∧ result (getEntities None (store r)) = result (getEntities None s)
  ∧ pendingTransactions (store r) = delete tid (pendingTransactions s)
  ∧ pendingTransactions (store r) !! tid = None
  ∧ ∀ k, k ≠ tid →
      pendingTransactions (store r) !! k = pendingTransactions s !! k.
Proof.
  simpl. repeat split.
  - apply lookup_delete_eq.
  - intros k Hk. by apply lookup_delete_ne.
Qed.

(** C10.  Confirming an id that the ledger does not hold returns and
    installs the state it found. *)
Theorem confirmTransaction_unknown (s : GameState) (tid : string) :
  pendingTransactions s !! tid = None →
  confirmTransaction tid s = {| result := Some tt; store := s; notified := [s] |}.
Proof.
  intros Hnone. unfold confirmTransaction, update, set, produce, deleteTransaction.
  rewrite delete_id by done. by destruct s.
Qed.

(** ** The ledger: apply and revert *)

Lemma applyOptimisticUpdate_returns tid f (s n : GameState) :
  f s = Some n →
  tid ≠ "__proto__" →
  applyOptimisticUpdate tid f s =
  let s' := insertTransaction (ledgerRecord tid s n) n in
  {| result := Some tt; store := s'; notified := [n; s'] |}.
Proof.
  intros Hf Htid. unfold applyOptimisticUpdate, produceWithPatches.
  unfold mbind, StoreM_bind, bind, get. simpl. rewrite Hf. simpl.
  unfold update, produce. by rewrite recordTransaction_insert.
Qed.

(** For the id [__proto__] the state of the recipe is installed, and
    the write of the record throws. *)
Lemma applyOptimisticUpdate_proto f (s n : GameState) :
  f s = Some n →
  applyOptimisticUpdate "__proto__" f s =
  {| result := None; store := n; notified := [n] |}.
Proof.
  intros Hf. unfold applyOptimisticUpdate, produceWithPatches.
  unfold mbind, StoreM_bind, bind, get. simpl. rewrite Hf. done.
Qed.

Lemma applyOptimisticUpdate_throws tid f (s : GameState) :
  f s = None →
  applyOptimisticUpdate tid f s = {| result := None; store := s; notified := [] |}.
Proof.
  intros Hf. unfold applyOptimisticUpdate, produceWithPatches.
  unfold mbind, StoreM_bind, bind, get. simpl. rewrite Hf. done.
Qed.

(** The entities that [applyOptimisticUpdate] leaves are those of the
    recipe, whatever the id. *)
Lemma entities_applyOptimisticUpdate tid f (s n : GameState) :
  f s = Some n →
  entities (exec (applyOptimisticUpdate tid f) s) = entities n.
Proof.
  intros Hf. unfold exec. destruct (decide (tid = "__proto__")) as [->|Htid].
  - by rewrite (applyOptimisticUpdate_proto _ _ _ Hf).
  - by rewrite (applyOptimisticUpdate_returns _ _ _ _ Hf Htid).
Qed.

Lemma revertOptimisticUpdate_unknown tid (s : GameState) :
  pendingTransactions s !! tid = None →
  tid ∉ Object_prototype →
  revertOptimisticUpdate tid s = {| result := Some tt; store := s; notified := [] |}.
Proof.
  intros Hnone Htid. unfold revertOptimisticUpdate.
  unfold mbind, StoreM_bind, bind, get. simpl.
  by rewrite (getProperty_Undefined _ _ Hnone Htid).
Qed.

Lemma revertOptimisticUpdate_inherited tid (s : GameState) :
  pendingTransactions s !! tid = None →
  tid ∈ Object_prototype →
  revertOptimisticUpdate tid s = {| result := None; store := s; notified := [] |}.
Proof.
  intros Hnone Htid. unfold revertOptimisticUpdate.
  unfold mbind, StoreM_bind, bind, get. simpl.
  by rewrite (getProperty_Inherited _ _ Hnone Htid).
Qed.

(** Without a record, [revertOptimisticUpdate] leaves the store as it
    finds it and notifies nobody, whether it returns or throws. *)
Lemma revertOptimisticUpdate_absent tid (s : GameState) :
  pendingTransactions s !! tid = None →
  store (revertOptimisticUpdate tid s) = s
  ∧ notified (revertOptimisticUpdate tid s) = [].
Proof.
  intros Hnone. destruct (decide (tid ∈ Object_prototype)) as [H|H].
  - by rewrite (revertOptimisticUpdate_inherited _ _ Hnone H).
  - by rewrite (revertOptimisticUpdate_unknown _ _ Hnone H).
Qed.

Lemma revertOptimisticUpdate_known tid t (s s' : GameState) :
  pendingTransactions s !! tid = Some t →
  applyPatches s (inversePatches t) = Some s' →
  revertOptimisticUpdate tid s =
  {| result := Some tt; store := deleteTransaction tid s';
     notified := [s'; deleteTransaction tid s'] |}.
Proof.
  intros Ht Hp. unfold revertOptimisticUpdate.
  unfold mbind, StoreM_bind, bind, get. simpl.
  by rewrite (getProperty_Own _ _ _ Ht), Hp.
Qed.

Lemma revertOptimisticUpdate_stale tid t (s : GameState) :
  pendingTransactions s !! tid = Some t →
  applyPatches s (inversePatches t) = None →
  revertOptimisticUpdate tid s = {| result := None; store := s; notified := [] |}.
Proof.
  intros Ht Hp. unfold revertOptimisticUpdate.
  unfold mbind, StoreM_bind, bind, get. simpl.
  by rewrite (getProperty_Own _ _ _ Ht), Hp.
Qed.

(** The inverse patches of a transaction, applied to the state that
    [applyOptimisticUpdate] left, give back the entities and, but for
    the record of the transaction, the ledger. *)
Lemma applyPatches_inverse_recorded tid (s n : GameState) :
  pendingTransactions s !! tid = None →
  safeScript (inversePatches (ledgerRecord tid s n)) = true →
  ∃ x, applyPatches (insertTransaction (ledgerRecord tid s n) n)
         (inversePatches (ledgerRecord tid s n)) = Some x
     ∧ deleteTransaction tid x = s.
Proof.
  intros Hs Hsafe. unfold applyPatches, ledgerRecord in *.
  cbn [inversePatches] in *.
  rewrite applyPatches_json_generate by done.
  destruct (generatePatches_recorded
              (height (json_of_state s) `max` height (json_of_state n))
              n s (ledgerRecord tid s n) Hs) as (x & Hx & He & Ht).
  exists x. split.
  - unfold ledgerRecord in Hx. rewrite Hx. simpl.
    apply state_of_json_of_state.
  - unfold deleteTransaction. simpl in Ht. rewrite He, Ht. by destruct s.
Qed.

(** C1, as amended.  For a state whose ledger has no entry for [tid],
    for a [tid] other than [__proto__] and for every recipe whose
    inverse patches [applyPatches] accepts (none passes through a
    property named [__proto__] or [constructor], none ends in
    [__proto__]), [applyOptimisticUpdate] followed at once by
    [revertOptimisticUpdate] leaves the state it started from: the same
    entities and the same ledger, again without an entry for [tid].
    When the recipe returns, neither call throws. *)
Theorem revert_after_apply_restores (s : GameState) (tid : string)
    (f : GameState → option GameState) :
  pendingTransactions s !! tid = None →
  tid ≠ "__proto__" →
  (∀ n, f s = Some n →
        safeScript (inversePatches (ledgerRecord tid s n)) = true) →
  exec (revertOptimisticUpdate tid) (exec (applyOptimisticUpdate tid f) s) = s
  ∧ (is_Some (f s) →
       result (applyOptimisticUpdate tid f s) = Some tt
       ∧ result (revertOptimisticUpdate tid
                   (exec (applyOptimisticUpdate tid f) s)) = Some tt).
Proof.
  intros Hs Htid Hsafe. unfold exec. destruct (f s) as [n|] eqn:Hf.
  - rewrite (applyOptimisticUpdate_returns _ _ _ _ Hf Htid). cbv zeta.
    cbn [store result].
    destruct (applyPatches_inverse_recorded tid s n Hs (Hsafe n eq_refl))
      as (x & Hx & Hd).
    rewrite (revertOptimisticUpdate_known tid (ledgerRecord tid s n) _ x);
      [|apply lookup_insert_eq|done].
    cbn [store result]. by rewrite Hd.
  - rewrite (applyOptimisticUpdate_throws _ _ _ Hf). cbn [store result].
    split; [apply (revertOptimisticUpdate_absent _ _ Hs)|]. by intros [? ?].
Qed.

(** C7, as amended.  [revertOptimisticUpdate] of an id without a ledger
    record neither changes nor installs anything; it returns, unless
    the id names a property of [Object.prototype], in which case it
    throws.  With a record, it applies the inverse patches of the
    record to the state it finds in the store; when they apply, it
    installs the patched state, and then installs that state without
    the ledger entry of the id; when they do not, it throws, installs
    nothing, and the ledger entry stays. *)
Theorem revertOptimisticUpdate_spec (s : GameState) (tid : string) :
  (pendingTransactions s !! tid = None →
     revertOptimisticUpdate tid s =
     {| result := if decide (tid ∈ Object_prototype) then None else Some tt;
        store := s; notified := [] |})
  ∧ (∀ t s',
       pendingTransactions s !! tid = Some t →
       applyPatches s (inversePatches t) = Some s' →
       revertOptimisticUpdate tid s =
       {| result := Some tt;
          store := {| entities := entities s';
                      pendingTransactions := delete tid (pendingTransactions s') |};
          notified := [s'; {| entities := entities s';
                              pendingTransactions :=
                                delete tid (pendingTransactions s') |}] |})
  ∧ (∀ t,
       pendingTransactions s !! tid = Some t →
       applyPatches s (inversePatches t) = None →
       revertOptimisticUpdate tid s =
       {| result := None; store := s; notified := [] |}).
Proof.
  split; [|split].
  - intros Hnone. case_decide as H.
    + by apply revertOptimisticUpdate_inherited.
    + by apply revertOptimisticUpdate_unknown.
  - intros t s' Ht Hp. by rewrite (revertOptimisticUpdate_known _ _ _ _ Ht Hp).
  - intros t Ht Hp. by apply (revertOptimisticUpdate_stale _ t).
Qed.

(** The recipe for a field other than [__proto__]. *)
Lemma assignField_fields id ns m field v (draft : GameState) :
  field ≠ "__proto__" →
  assignField id ns m field v draft =
    (e ← entities draft !! id;
     nsModels ← models e !! ns;
     fields ← nsModels !! m ≫= as_object;
     Some {| entities :=
               <[id := {| entityId := entityId e;
                          models := <[ns := <[m := JObj (<[field := v]> fields)]> nsModels]>
                                      (models e) |}]> (entities draft);
             pendingTransactions := pendingTransactions draft |}).
Proof.
  intros H. unfold assignField, getProperty.
  destruct (entities draft !! id) as [e|];
    [|by destruct (decide (id ∈ Object_prototype))].
  cbn [own mbind option_bind].
  destruct (models e !! ns) as [nsModels|]; [|done]. cbn [mbind option_bind].
  destruct (nsModels !! m) as [target|]; [|done]. cbn [mbind option_bind].
  by rewrite decide_False.
Qed.

Lemma readField_assignField id ns m field v (s n : GameState) :
  field ≠ "__proto__" →
  assignField id ns m field v s = Some n →
  ∃ e, entities n !! id = Some e ∧ readField e ns m field = Some v.
Proof.
  intros Hfield. rewrite (assignField_fields _ _ _ _ _ _ Hfield). intros H.
  destruct (entities s !! id) as [e|]; simpl in H; [|done].
  destruct (models e !! ns) as [nsModels|]; simpl in H; [|done].
  destruct (nsModels !! m) as [[]|]; simpl in H; try done.
  injection H as <-. simpl. eexists. split; [apply lookup_insert_eq|].
  unfold readField, model_at. simpl.
  rewrite lookup_insert_eq. simpl. rewrite lookup_insert_eq. simpl.
  apply lookup_insert_eq.
Qed.


(** C2, as amended.  When the recipe returns and [tid] is not
    [__proto__], [applyOptimisticUpdate] notifies the subscribers
    twice: first of the state that the recipe
    produced, in which the record of [tid] is not yet written, and then
    of that state with the record; both snapshots carry the entities
    that the recipe produced, so none has the record without the
    mutation, and the second is the state the store is left in. *)
Theorem applyOptimisticUpdate_notifies_twice (s n : GameState) (tid : string)
    (f : GameState → option GameState) :
  f s = Some n →
  tid ≠ "__proto__" →
  let r := applyOptimisticUpdate tid f s in
  notified r = [n; store r]
  ∧ entities (store r) = entities n
  ∧ pendingTransactions (store r) =
      <[tid := ledgerRecord tid s n]> (pendingTransactions n)
  ∧ ∀ x, x ∈ notified r → entities x = entities n.
Proof.
  intros Hf Htid r. subst r.
  rewrite (applyOptimisticUpdate_returns _ _ _ _ Hf Htid). simpl.
  repeat split. intros x Hx. set_solver.
Qed.

(** ** The waiter *)

Section Waiter.
Context (id : string) (pred : Property ParsedEntity → bool).

Lemma waitForEntityChange_registers (cur : GameState) :
  pred (getProperty (entities cur) id) = false →
  waitForEntityChange id pred cur =
  {| promise := Pending; subscribed := true; unsubscribe_bound := true;
     timer_bound := true; timer_armed := true |}.
Proof.
  intros H. unfold waitForEntityChange, subscribe, listener. simpl.
  by rewrite H.
Qed.

Lemma deliver_app (xs ys : list GameState) (w : Waiter) :
  deliver id pred (xs ++ ys) w = deliver id pred ys (deliver id pred xs w).
Proof. unfold deliver. apply foldl_app. Qed.

Lemma deliver_cons x (xs : list GameState) (w : Waiter) :
  deliver id pred (x :: xs) w = deliver id pred xs (notify id pred x w).1.
Proof. done. Qed.

Lemma deliver_unsatisfied (states : list GameState) (w : Waiter) :
  Forall (λ s, pred (getProperty (entities s) id) = false) states →
  deliver id pred states w = w.
Proof.
  intros H. revert w.
  induction H as [|s states Hs _ IH]; intros w; [done|].
  rewrite deliver_cons. unfold notify, listener. rewrite Hs.
  destruct (subscribed w); apply IH.
Qed.

Lemma deliver_unsubscribed (states : list GameState) (w : Waiter) :
  subscribed w = false → deliver id pred states w = w.
Proof.
  intros H. induction states as [|s states IH]; [done|].
  rewrite deliver_cons. unfold notify. by rewrite H.
Qed.

(** A wait that starts while the predicate is false resolves on the
    first snapshot that satisfies it, with the entity of that
    snapshot, and is deregistered with its timer cleared; later
    snapshots and the timer do nothing to it. *)
Lemma waitForEntityChange_resolves timeout (cur s : GameState)
    (before after : list GameState) :
  pred (getProperty (entities cur) id) = false →
  Forall (λ x, pred (getProperty (entities x) id) = false) before →
  pred (getProperty (entities s) id) = true →
  let w := deliver id pred (before ++ s :: after)
             (waitForEntityChange id pred cur) in
  w = {| promise := Resolved (getProperty (entities s) id); subscribed := false;
         unsubscribe_bound := true; timer_bound := true;
         timer_armed := false |}
  ∧ timer_fires timeout w = w.
Proof.
  intros Hcur Hbefore Hs w. subst w.
  rewrite (waitForEntityChange_registers _ Hcur).
  rewrite deliver_app, (deliver_unsatisfied _ _ Hbefore), deliver_cons.
  unfold notify, listener. simpl. rewrite Hs. simpl.
  by rewrite deliver_unsubscribed.
Qed.

(** A wait that starts while the predicate is false and sees no
    snapshot that satisfies it before its timer fires is deregistered
    and rejected with the timeout error, which carries the timeout
    that was asked for. *)
Lemma waitForEntityChange_times_out timeout (cur : GameState)
    (states : list GameState) :
  pred (getProperty (entities cur) id) = false →
  Forall (λ x, pred (getProperty (entities x) id) = false) states →
  timer_fires timeout
    (deliver id pred states (waitForEntityChange id pred cur)) =
  {| promise := Rejected (TimeoutExceeded timeout); subscribed := false;
     unsubscribe_bound := true; timer_bound := true; timer_armed := false |}.
Proof.
  intros Hcur Hs. rewrite (deliver_unsatisfied _ _ Hs).
  by rewrite (waitForEntityChange_registers _ Hcur).
Qed.

(** A wait that starts while the predicate already holds: the listener
    runs inside [subscribe], reads [timer] before its declaration and
    throws; the promise is rejected with that error, not resolved, and
    the listener stays registered with no timer to remove it.  Every
    later snapshot that satisfies the predicate makes the listener
    throw again, into the [set] that notifies it. *)
Lemma waitForEntityChange_already_satisfied (cur : GameState) :
  pred (getProperty (entities cur) id) = true →
  waitForEntityChange id pred cur =
  {| promise := Rejected (ReferenceError "timer"); subscribed := true;
     unsubscribe_bound := false; timer_bound := false;
     timer_armed := false |}.
Proof.
  intros H. unfold waitForEntityChange, subscribe, listener. simpl.
  by rewrite H.
Qed.

Lemma notify_after_already_satisfied (cur s : GameState) :
  pred (getProperty (entities cur) id) = true →
  pred (getProperty (entities s) id) = true →
  notify id pred s (waitForEntityChange id pred cur) =
  (waitForEntityChange id pred cur, Some (ReferenceError "timer")).
Proof.
  intros Hcur Hs. rewrite (waitForEntityChange_already_satisfied _ Hcur).
  unfold notify, listener. simpl. by rewrite Hs.
Qed.
End Waiter.

(** ** The worked scenario *)

Lemma setRemaining_seeded : setRemaining 100 seeded = Some spawned.
Proof. vm_compute. reflexivity. Qed.

Lemma seeded_by_setEntities : exec (setEntities [player 0]) initialState = seeded.
Proof. vm_compute. reflexivity. Qed.

Lemma optimistic_by_applyOptimisticUpdate :
  applyOptimisticUpdate "tx1" (setRemaining 100) seeded =
  {| result := Some tt; store := optimistic; notified := [spawned; optimistic] |}.
Proof. by apply applyOptimisticUpdate_returns; [apply setRemaining_seeded|]. Qed.

(** The patches of [tx1] are the single assignment and its inverse. *)
Lemma ledgerRecord_tx1 :
  ledgerRecord "tx1" seeded spawned =
  {| transactionId := "tx1";
     patches :=
       [ {| op := Replace;
            path := ["entities"; "0x1"; "models"; "dojo_starter"; "Moves"; "remaining"];
            value := Some (JNum 100) |} ];
     inversePatches :=
       [ {| op := Replace;
            path := ["entities"; "0x1"; "models"; "dojo_starter"; "Moves"; "remaining"];
            value := Some (JNum 0) |} ] |}.
Proof. vm_compute. reflexivity. Qed.

(** C1 on the scenario. *)
Lemma revert_after_apply_restores_witness :
  pendingTransactions seeded !! "tx1" = None
  ∧ "tx1" ≠ "__proto__"
  ∧ setRemaining 100 seeded = Some spawned
  ∧ safeScript (inversePatches (ledgerRecord "tx1" seeded spawned)) = true
  ∧ exec (revertOptimisticUpdate "tx1")
         (exec (applyOptimisticUpdate "tx1" (setRemaining 100)) seeded) = seeded.
Proof.
  split; [reflexivity|]. split; [done|]. split; [vm_compute; reflexivity|].
  split; [vm_compute; reflexivity|].
  apply (revert_after_apply_restores seeded "tx1" (setRemaining 100));
    [reflexivity|done|].
  intros n Hn. vm_compute in Hn. injection Hn as <-. vm_compute. reflexivity.
Defined.

(** C1, as stated, fails for the id [__proto__], which the ledger of
    the seeded cache does not hold: the state of the recipe is
    installed, the write of the record throws, the revert reads the
    prototype where it looks for the record and throws too, and the
    store stays at the mutated state. *)
Lemma revert_after_apply_proto :
  pendingTransactions seeded !! "__proto__" = None
  ∧ applyOptimisticUpdate "__proto__" (setRemaining 100) seeded
    = {| result := None; store := spawned; notified := [spawned] |}
  ∧ revertOptimisticUpdate "__proto__" spawned
    = {| result := None; store := spawned; notified := [] |}
  ∧ exec (revertOptimisticUpdate "__proto__")
         (exec (applyOptimisticUpdate "__proto__" (setRemaining 100)) seeded)
    = spawned
  ∧ spawned ≠ seeded.
Proof.
  split; [reflexivity|]. split; [vm_compute; reflexivity|].
  split; [vm_compute; reflexivity|]. split; [vm_compute; reflexivity|].
  intros H. apply (f_equal (λ s, fieldOf s "0x1" "dojo_starter" "Moves" "remaining"))
    in H.
  vm_compute in H. discriminate.
Qed.

(** The round trip also fails when [applyPatches] refuses the inverse
    patches: for an entity with the id [constructor] the update is
    applied and recorded, the path of its inverse patch passes through
    [constructor], the revert throws, and the store keeps the
    optimistic state and the record. *)
Lemma revert_after_apply_reserved_id :
  pendingTransactions constructorCache !! "tx1" = None
  ∧ result (applyOptimisticUpdate "tx1" (setRemainingOfConstructor 100)
              constructorCache) = Some tt
  ∧ path <$> inversePatches
               (ledgerRecord "tx1" constructorCache
                  (default constructorCache
                     (setRemainingOfConstructor 100 constructorCache)))
    = [["entities"; "constructor"; "models"; "dojo_starter"; "Moves"; "remaining"]]
  ∧ (let optimisticState :=
       exec (applyOptimisticUpdate "tx1" (setRemainingOfConstructor 100))
         constructorCache in
     revertOptimisticUpdate "tx1" optimisticState
     = {| result := None; store := optimisticState; notified := [] |}
     ∧ fieldOf optimisticState "constructor" "dojo_starter" "Moves" "remaining"
       = Some (JNum 100)).
Proof.
  split; [reflexivity|]. split; [vm_compute; reflexivity|].
  split; [vm_compute; reflexivity|]. split; vm_compute; reflexivity.
Qed.

(** C2, as stated, fails: the first snapshot that the subscribers
    receive during [applyOptimisticUpdate] has the mutation
    ([remaining = 100], where the cache held [0]) and no ledger record
    for the transaction. *)
Lemma applyOptimisticUpdate_not_atomic :
  ∃ x e,
    x ∈ notified (applyOptimisticUpdate "tx1" (setRemaining 100) seeded)
    ∧ entities x !! "0x1" = Some e
    ∧ readField e "dojo_starter" "Moves" "remaining" = Some (JNum 100)
    ∧ pendingTransactions x !! "tx1" = None.
Proof.
  exists spawned, (player 100).
  rewrite optimistic_by_applyOptimisticUpdate. simpl.
  split; [set_solver|]. by vm_compute.
Qed.

(** C2, as amended, on the scenario. *)
Lemma applyOptimisticUpdate_notifies_twice_witness :
  setRemaining 100 seeded = Some spawned
  ∧ "tx1" ≠ "__proto__"
  ∧ notified (applyOptimisticUpdate "tx1" (setRemaining 100) seeded)
    = [spawned; store (applyOptimisticUpdate "tx1" (setRemaining 100) seeded)].
Proof.
  split; [vm_compute; reflexivity|]. split; [done|].
  apply (applyOptimisticUpdate_notifies_twice seeded spawned "tx1"
           (setRemaining 100)); [vm_compute; reflexivity|done].
Defined.

(** C3, as stated, fails: the model [M2] of namespace [A], which the
    update does not mention, is kept, so the models of the entity are
    not [{A: aVals2, B: bVals}]. *)
Lemma updateEntity_keeps_models_of_updated_namespace :
  ∃ e', entities (exec (updateEntity updateOfA) twoNamespaces) !! "0x1" = Some e'
      ∧ models e' = {[ "A" := {[ "M1" := JNum 9; "M2" := JNum 2 ]};
                       "B" := {[ "M3" := JNum 3 ]} ]}
      ∧ models e' ≠ {[ "A" := {[ "M1" := JNum 9 ]}; "B" := {[ "M3" := JNum 3 ]} ]}.
Proof.
  eexists. split; [vm_compute; reflexivity|]. split; [vm_compute; reflexivity|].
  intros H. apply (f_equal (λ ms, model_at ms "A" "M2")) in H.
  vm_compute in H. discriminate.
Qed.

(** C3, as amended, on the two namespaces. *)
Lemma updateEntity_merges_models_witness :
  "0x1" ≠ ""
  ∧ "0x1" ≠ "__proto__"
  ∧ entities twoNamespaces !! "0x1" = Some storedAB
  ∧ ∃ e', entities (store (updateEntity updateOfA twoNamespaces)) !! "0x1" = Some e'
        ∧ models e' =
            {[ "A" := {[ "M1" := JNum 9 ]} ∪ {[ "M1" := JNum 1; "M2" := JNum 2 ]};
               "B" := {[ "M3" := JNum 3 ]} ]}.
Proof.
  assert ("0x1" ≠ "__proto__") as Hp by done.
  split; [done|]. split; [exact Hp|]. split; [reflexivity|].
  pose proof (updateEntity_merges_models twoNamespaces "0x1" storedAB
                {[ "A" := {[ "M1" := JNum 9 ]} ]}) as H.
  cbv zeta in H.
  destruct H as [_ H]; [done|reflexivity|].
  destruct (H Hp) as (_ & _ & _ & e' & He & _ & _ & HAB).
  exists e'. split; [exact He|].
  apply (HAB "A" "B"); [done|reflexivity|reflexivity].
Defined.

(** An entity stored under [__proto__] cannot be updated: the write of
    the merged entity throws. *)
Lemma updateEntity_stored_proto :
  let s := {| entities := {[ "__proto__" := protoEntity ]};
              pendingTransactions := ∅ |} in
  updateEntity (asPartial protoEntity) s
  = {| result := None; store := s; notified := [] |}.
Proof. vm_compute. reflexivity. Qed.

(** C4, as amended, on the seeded cache: an update for an entity that
    the cache does not hold. *)
Lemma updateEntity_absent_dropped_witness :
  (∀ id, partial_entityId updateOfStranger = Some id →
         entities seeded !! id = None ∧ id ∉ Object_prototype)
  ∧ updateEntity updateOfStranger seeded =
    {| result := Some tt; store := seeded; notified := [seeded] |}.
Proof.
  assert (∀ id, partial_entityId updateOfStranger = Some id →
                entities seeded !! id = None ∧ id ∉ Object_prototype) as H.
  { intros id [= <-]. split; [reflexivity|].
    apply (bool_decide_unpack _). vm_compute. exact I. }
  split; [exact H|]. apply (updateEntity_absent_dropped updateOfStranger seeded H).
Defined.

(** C4, as stated, fails: [toString] is no key of the seeded cache, but
    [draft.entities["toString"]] reads as the function that
    [Object.prototype] has under that name, the guard passes, and
    [updateEntity] creates an entity under that id, with the models of
    the update. *)
Lemma updateEntity_creates_inherited_id :
  entities seeded !! "toString" = None
  ∧ result (updateEntity updateOfToString seeded) = Some tt
  ∧ entities (exec (updateEntity updateOfToString) seeded) !! "toString"
    = Some {| entityId := "toString"; models := moves 5 |}
  ∧ exec (updateEntity updateOfToString) seeded ≠ seeded.
Proof.
  split; [reflexivity|]. split; [vm_compute; reflexivity|].
  assert (entities (exec (updateEntity updateOfToString) seeded) !! "toString"
          = Some {| entityId := "toString"; models := moves 5 |}) as H
    by (vm_compute; reflexivity).
  split; [exact H|]. intros Heq. rewrite Heq in H. vm_compute in H. discriminate.
Qed.

(** C5 on the state that holds [tx1]. *)
Lemma confirmTransaction_keeps_entities_witness :
  entities (store (confirmTransaction "tx1" optimistic)) = entities optimistic
  ∧ pendingTransactions (store (confirmTransaction "tx1" optimistic)) !! "tx1" = None.
Proof.
  pose proof (confirmTransaction_keeps_entities optimistic "tx1") as H.
  split; apply H.
Defined.

(** C10 on the seeded cache, whose ledger is empty. *)
Lemma confirmTransaction_unknown_witness :
  pendingTransactions seeded !! "tx1" = None
  ∧ confirmTransaction "tx1" seeded =
    {| result := Some tt; store := seeded; notified := [seeded] |}.
Proof.
  split; [reflexivity|]. apply (confirmTransaction_unknown seeded "tx1"). reflexivity.
Defined.



Lemma applyPatches_optimistic :
  applyPatches optimistic (inversePatches (ledgerRecord "tx1" seeded spawned))
  = Some (insertTransaction (ledgerRecord "tx1" seeded spawned) seeded).
Proof. vm_compute. reflexivity. Qed.

(** C7, as amended, on the seeded cache, which has no record, and on
    the state that holds [tx1]. *)
Lemma revertOptimisticUpdate_spec_witness :
  (pendingTransactions seeded !! "tx1" = None
   ∧ revertOptimisticUpdate "tx1" seeded =
     {| result := Some tt; store := seeded; notified := [] |})
  ∧ (pendingTransactions optimistic !! "tx1"
       = Some (ledgerRecord "tx1" seeded spawned)
     ∧ applyPatches optimistic (inversePatches (ledgerRecord "tx1" seeded spawned))
       = Some (insertTransaction (ledgerRecord "tx1" seeded spawned) seeded)
     ∧ store (revertOptimisticUpdate "tx1" optimistic) = seeded)
  ∧ (pendingTransactions stale !! "tx1" = Some (ledgerRecord "tx1" seeded spawned)
     ∧ applyPatches stale (inversePatches (ledgerRecord "tx1" seeded spawned)) = None
     ∧ revertOptimisticUpdate "tx1" stale =
       {| result := None; store := stale; notified := [] |}).
Proof.
  split; [|split].
  - split; [reflexivity|].
    apply (proj1 (revertOptimisticUpdate_spec seeded "tx1")). reflexivity.
  - split; [vm_compute; reflexivity|]. split; [vm_compute; reflexivity|].
    rewrite (proj1 (proj2 (revertOptimisticUpdate_spec optimistic "tx1"))
               (ledgerRecord "tx1" seeded spawned)
               (insertTransaction (ledgerRecord "tx1" seeded spawned) seeded));
      vm_compute; reflexivity.
  - split; [vm_compute; reflexivity|]. split; [vm_compute; reflexivity|].
    apply (proj2 (proj2 (revertOptimisticUpdate_spec stale "tx1"))
             (ledgerRecord "tx1" seeded spawned)); vm_compute; reflexivity.
Defined.

(** C7, as stated, fails twice.  The ledger of the seeded cache has no
    record for [constructor], yet [revertOptimisticUpdate] throws: it
    reads the function that [Object.prototype] has under that name,
    takes it for the record and hands its [inversePatches], which is
    [undefined], to [applyPatches].  And with a record in the ledger,
    on a state in which the path of the inverse patch does not resolve
    any more, it throws, installs nothing, and the entry stays. *)
Lemma revertOptimisticUpdate_throws :
  (pendingTransactions seeded !! "constructor" = None
   ∧ revertOptimisticUpdate "constructor" seeded
     = {| result := None; store := seeded; notified := [] |})
  ∧ (pendingTransactions stale !! "tx1" = Some (ledgerRecord "tx1" seeded spawned)
     ∧ revertOptimisticUpdate "tx1" stale
       = {| result := None; store := stale; notified := [] |}
     ∧ pendingTransactions (exec (revertOptimisticUpdate "tx1") stale) !! "tx1"
       = Some (ledgerRecord "tx1" seeded spawned)).
Proof.
  split.
  - split; [reflexivity|]. vm_compute. reflexivity.
  - split; [vm_compute; reflexivity|]. split; vm_compute; reflexivity.
Qed.

(** C9, as amended, on the initial state. *)
Lemma setEntities_overwrites_witness :
  Forall (λ e, entityId e ≠ "__proto__") [player 0; player 100]
  ∧ result (setEntities [player 0; player 100] initialState) = Some tt
  ∧ entities (exec (setEntities [player 0; player 100]) initialState) !! "0x1"
    = Some (player 100).
Proof.
  assert (Forall (λ e, entityId e ≠ "__proto__") [player 0; player 100]) as H
    by (repeat constructor; done).
  split; [exact H|].
  destruct (proj1 (setEntities_overwrites [player 0; player 100] initialState) H)
    as (Hr & _ & Hl).
  split; [exact Hr|]. rewrite Hl. vm_compute. reflexivity.
Defined.

(** C9, as stated, fails: a list that holds an entity with the id
    [__proto__] makes [setEntities] throw, and nothing of the list is
    installed, the entity that precedes it included. *)
Lemma setEntities_proto_throws :
  setEntities [player 100; protoEntity] seeded
  = {| result := None; store := seeded; notified := [] |}
  ∧ entities (exec (setEntities [player 100; protoEntity]) seeded) !! "0x1"
    = Some (player 0)
  ∧ entities (exec (setEntities [player 100; protoEntity]) seeded) !! "__proto__"
    = None.
Proof. split; [|split]; vm_compute; reflexivity. Qed.

(** With an id that the ledger already holds, the record that was there
    is lost: apply overwrites it and revert deletes it. *)
Lemma revert_after_apply_reused_id :
  exec (revertOptimisticUpdate "tx1")
       (exec (applyOptimisticUpdate "tx1" (setRemaining 50)) optimistic)
  = spawned.
Proof. vm_compute. reflexivity. Qed.

(** [revertOptimisticUpdate] patches the state it finds: after another
    entity arrived between apply and revert, the revert restores
    [remaining = 0] and keeps the newcomer. *)
Lemma revert_patches_current_state :
  let arrived := {| entityId := "0x2"; models := moves 7 |} in
  exec (revertOptimisticUpdate "tx1") (exec (setEntities [arrived]) optimistic)
  = {| entities := {[ "0x1" := player 0; "0x2" := arrived ]};
       pendingTransactions := ∅ |}.
Proof. vm_compute. reflexivity. Qed.

(** C8 on the state that the optimistic update of the scenario leaves:
    the predicate of the wait already holds, the promise is rejected
    with a [ReferenceError] instead of being resolved with the entity,
    and the listener stays registered. *)
Theorem waitForEntityChange_after_optimistic_update :
  remainingIs 100 (getProperty (entities optimistic) "0x1") = true
  ∧ waitForEntityChange "0x1" (remainingIs 100) optimistic =
    {| promise := Rejected (ReferenceError "timer"); subscribed := true;
       unsubscribe_bound := false; timer_bound := false; timer_armed := false |}.
Proof.
  assert (remainingIs 100 (getProperty (entities optimistic) "0x1") = true) as H.
  { vm_compute. reflexivity. }
  split; [exact H|]. by apply waitForEntityChange_already_satisfied.
Qed.

(** * Further properties of the store *)

Lemma GameState_eq (a b : GameState) :
  entities a = entities b → pendingTransactions a = pendingTransactions b → a = b.
Proof. destruct a, b. simpl. by intros -> ->. Qed.

Lemma exec_setEntities es s :
  exec (setEntities es) s =
    if decide (Forall (λ e, entityId e ≠ "__proto__") es)
    then foldl insertEntity s es else s.
Proof.
  unfold exec. case_decide as H.
  - by rewrite (setEntities_returns _ _ H).
  - by rewrite (setEntities_throws _ _ H).
Qed.

(** ** The entity cache never forgets *)

Lemma dom_foldl_insertEntity (es : list ParsedEntity) (s : GameState) :
  dom (entities (foldl insertEntity s es))
  = dom (entities s) ∪ list_to_set (entityId <$> es).
Proof.
  revert s. induction es as [|e es IH]; intros s; simpl.
  - set_solver.
  - rewrite IH. simpl. rewrite dom_insert_L. set_solver.
Qed.


(** X2.  Replaying a batch is harmless: [setEntities] of the same list a
    second time leaves the state that the first call left. *)
Theorem setEntities_idempotent (es : list ParsedEntity) (s : GameState) :
  exec (setEntities es) (exec (setEntities es) s) = exec (setEntities es) s.
Proof.
  rewrite !exec_setEntities. case_decide; [|done]. apply GameState_eq.
  - apply map_eq. intros id. rewrite !lookup_foldl_insertEntity.
    by destruct (last (filter (λ e, entityId e = id) es)).
  - by rewrite !pendingTransactions_foldl_insertEntity.
Qed.

(** [updateEntity] leaves the state as it is, or stores the merged
    entity under the id of the update. *)
Lemma exec_updateEntity_cases (u : PartialEntity) (s : GameState) :
  exec (updateEntity u) s = s
  ∨ ∃ id ms,
      u = {| partial_entityId := Some id; partial_models := Some ms |}
      ∧ id ≠ "" ∧ id ≠ "__proto__"
      ∧ getProperty (entities s) id ≠ Undefined
      ∧ exec (updateEntity u) s =
          insertEntity s
            {| entityId := id;
               models := mergeModels (modelsOf (getProperty (entities s) id)) ms |}.
Proof.
  unfold exec. rewrite updateEntity_run.
  destruct u as [[id|] [ms|]]; try by left. cbn [partial_entityId partial_models].
  destruct (decide (id = "")) as [->|Hid]; [by left|].
  destruct (getProperty (entities s) id) as [ex| |] eqn:Hg; [| |by left];
    (destruct (decide (id = "__proto__")) as [->|Hp]; [by left|];
     right; exists id, ms; rewrite Hg; by repeat split).
Qed.

Lemma getProperty_not_Undefined {A} (o : gmap string A) k :
  getProperty o k ≠ Undefined → k ∉ dom o → k ∈ Object_prototype.
Proof.
  unfold getProperty. intros H Hk. apply not_elem_of_dom in Hk.
  rewrite Hk in H. by case_decide.
Qed.

(** X4.  [updateEntity] never removes an entity, never touches the
    ledger, and never removes a model: whatever the update, every id
    cached before is cached afterwards, and a model that an entity had
    under a namespace and a name is still there (as it was, or
    overwritten).  It adds an entity only under the id of the update,
    and only when that id names a property of [Object.prototype]. *)
Theorem updateEntity_never_removes (u : PartialEntity) (s : GameState) :
  let s' := exec (updateEntity u) s in
  dom (entities s) ⊆ dom (entities s')
  ∧ (∀ id, id ∈ dom (entities s') → id ∉ dom (entities s) →
           partial_entityId u = Some id ∧ id ∈ Object_prototype)
  ∧ pendingTransactions s' = pendingTransactions s
  ∧ ∀ id e ns m v,
      entities s !! id = Some e →
      model_at (models e) ns m = Some v →
      ∃ e' v', entities s' !! id = Some e'
               ∧ model_at (models e') ns m = Some v'.
Proof.
  intros s'. subst s'.
  destruct (exec_updateEntity_cases u s)
    as [->|(id & ms & -> & _ & _ & Hg & ->)].
  { split; [done|]. split; [done|]. split; [done|]. eauto. }
  cbn [insertEntity entities pendingTransactions entityId partial_entityId].
  split; [|split; [|split; [done|]]].
  - rewrite dom_insert_L. set_solver.
  - intros id' Hin Hout. rewrite dom_insert_L in Hin.
    assert (id' = id) as -> by set_solver.
    split; [done|]. by apply (getProperty_not_Undefined (entities s)).
  - intros id' e ns m v He Hv. destruct (decide (id' = id)) as [->|Hne].
    + rewrite lookup_insert_eq. rewrite (getProperty_Own _ _ _ He).
      eexists _, (default v (model_at ms ns m)). split; [done|]. simpl.
      rewrite model_at_mergeModels. by destruct (model_at ms ns m).
    + rewrite lookup_insert_ne by done. eauto.
Qed.

Lemma mergeModels_idempotent (ex ms : gmap string (gmap string json)) :
  mergeModels (mergeModels ex ms) ms = mergeModels ex ms.
Proof.
  apply map_eq. intros ns. rewrite !lookup_mergeModels.
  destruct (ms !! ns) as [nsModels|]; [|done]. simpl. f_equal.
  by rewrite (assoc_L (∪)), (idemp_L (∪)).
Qed.

(** X5.  Replaying an update is harmless: [updateEntity] of the same
    update a second time leaves the state that the first call left. *)
Theorem updateEntity_idempotent (u : PartialEntity) (s : GameState) :
  exec (updateEntity u) (exec (updateEntity u) s) = exec (updateEntity u) s.
Proof.
  destruct (exec_updateEntity_cases u s)
    as [Hs|(id & ms & -> & Hid & Hp & Hg & Hs)].
  { by rewrite !Hs. }
  rewrite Hs. unfold exec. erewrite updateEntity_present;
    [|done|done|simpl; apply lookup_insert_eq].
  unfold insertEntity. simpl. by rewrite mergeModels_idempotent, insert_insert_eq.
Qed.

(** X3.  The store keeps its keys: starting from a state in which every
    entity is stored under its own [entityId] and every ledger record
    under its own [transactionId] (as in the initial state),
    [setEntities], [updateEntity], [confirmTransaction] and an
    [applyOptimisticUpdate] whose recipe leaves such a state leave
    such a state again. *)
Theorem store_stays_keyed (s : GameState) :
  keyed initialState
  ∧ (keyed s →
     (∀ es, keyed (exec (setEntities es) s))
     ∧ (∀ u, keyed (exec (updateEntity u) s))
     ∧ (∀ tid, keyed (exec (confirmTransaction tid) s))
     ∧ (∀ tid f n, f s = Some n → keyed n →
          keyed (exec (applyOptimisticUpdate tid f) s))).
Proof.
  split; [by split; intros ??; simpl; rewrite lookup_empty|].
  intros [He Ht]. split; [|split; [|split]].
  - intros es. rewrite exec_setEntities. case_decide; [|done]. split.
    + intros id e. rewrite lookup_foldl_insertEntity.
      destruct (last (filter (λ e0, entityId e0 = id) es)) as [e'|] eqn:Hl;
        [|apply He].
      intros [= <-]. apply last_Some_elem_of, list_elem_of_filter in Hl. tauto.
    + intros tid t. rewrite pendingTransactions_foldl_insertEntity.
      apply Ht.
  - intros u.
    destruct (exec_updateEntity_cases u s) as [->|(id & ms & _ & _ & _ & _ & ->)];
      [done|].
    split; [|done]. intros id' e. simpl.
    destruct (decide (id' = id)) as [->|Hne].
    + rewrite lookup_insert_eq. by intros [= <-].
    + rewrite lookup_insert_ne by done. apply He.
  - intros tid. split; [done|]. intros k t. simpl.
    intros Hk%lookup_delete_Some. apply Ht, Hk.
  - intros tid f n Hf [Hne Hnt]. unfold exec.
    destruct (decide (tid = "__proto__")) as [->|Htid].
    { by rewrite (applyOptimisticUpdate_proto _ _ _ Hf). }
    rewrite (applyOptimisticUpdate_returns _ _ _ _ Hf Htid). simpl.
    split; [done|]. intros k t. simpl.
    destruct (decide (k = tid)) as [->|Hk].
    + rewrite lookup_insert_eq. by intros [= <-].
    + rewrite lookup_insert_ne by done. apply Hnt.
Qed.

(** ** Queries *)

(** X6.  [getEntitiesByModel(namespace, model)] reads without changing
    or notifying anything, and returns exactly the cached entities
    whose [models[namespace][model]] is there and truthy; an entity
    whose model is an object is always listed, one whose model is
    [null], [0], [false] or the empty string is not. *)
Theorem getEntitiesByModel_lists (namespace model : string) (s : GameState) :
  ∃ l, getEntitiesByModel namespace model s =
         {| result := Some l; store := s; notified := [] |}
     ∧ ∀ e, e ∈ l ↔
          ∃ id v, entities s !! id = Some e
                  ∧ model_at (models e) namespace model = Some v
                  ∧ truthy v = true.
Proof.
  eexists. split; [reflexivity|]. intros e.
  rewrite list_elem_of_In, filter_In, <- list_elem_of_In, list_elem_of_fmap.
  unfold model_at. split.
  - intros [[[id e'] [-> Hin%elem_of_map_to_list]] Hm]. simpl in *.
    destruct (models e' !! namespace) as [ms|]; [|done]. simpl.
    destruct (ms !! model) as [v|] eqn:Hv; [|done]. eauto.
  - intros (id & v & He & Hm & Hv). split.
    + exists (id, e). split; [done|]. by apply elem_of_map_to_list.
    + destruct (models e !! namespace) as [ms|]; [|done]. simpl in Hm.
      by rewrite Hm.
Qed.

(** ** How the ledger operations compose *)

Lemma confirmTransaction_state (s : GameState) tid :
  pendingTransactions s !! tid = None →
  confirmTransaction tid s = {| result := Some tt; store := s; notified := [s] |}.
Proof.
  intros Hnone. unfold confirmTransaction, update, set, produce, deleteTransaction.
  rewrite delete_id by done. by destruct s.
Qed.

(** X7.  Apply then confirm is a commit: when the recipe returns a
    state whose ledger has no entry for [tid], [applyOptimisticUpdate]
    followed by [confirmTransaction] leaves exactly the state that the
    recipe produced, with no trace of the transaction. *)
Theorem apply_then_confirm_commits (s n : GameState) (tid : string)
    (f : GameState → option GameState) :
  f s = Some n →
  pendingTransactions n !! tid = None →
  exec (confirmTransaction tid) (exec (applyOptimisticUpdate tid f) s) = n.
Proof.
  intros Hf Hn. unfold exec. destruct (decide (tid = "__proto__")) as [->|Htid].
  { rewrite (applyOptimisticUpdate_proto _ _ _ Hf). cbn [store].
    by rewrite (confirmTransaction_state _ _ Hn). }
  rewrite (applyOptimisticUpdate_returns _ _ _ _ Hf Htid).
  cbv zeta. cbn [store]. unfold confirmTransaction, update, set, produce.
  cbn [store]. apply GameState_eq; [done|]. simpl.
  by rewrite delete_insert_eq, delete_id.
Qed.

(** X8.  A confirmed transaction can no longer be reverted:
    [revertOptimisticUpdate] after [confirmTransaction] of the same id
    changes nothing and notifies nobody; it returns, unless the id
    names a property of [Object.prototype], in which case it throws. *)
Theorem revert_after_confirm_is_noop (s : GameState) (tid : string) :
  revertOptimisticUpdate tid (exec (confirmTransaction tid) s) =
  {| result := if decide (tid ∈ Object_prototype) then None else Some tt;
     store := exec (confirmTransaction tid) s; notified := [] |}.
Proof.
  assert (pendingTransactions (exec (confirmTransaction tid) s) !! tid = None)
    as Hnone by apply lookup_delete_eq.
  case_decide as H.
  - by apply revertOptimisticUpdate_inherited.
  - by apply revertOptimisticUpdate_unknown.
Qed.

Lemma exec_revert_apply (s : GameState) (tid : string)
    (f : GameState → option GameState) :
  pendingTransactions s !! tid = None →
  tid ≠ "__proto__" →
  (∀ n, f s = Some n →
        safeScript (inversePatches (ledgerRecord tid s n)) = true) →
  exec (revertOptimisticUpdate tid) (exec (applyOptimisticUpdate tid f) s) = s.
Proof.
  intros Hs Htid Hsafe. unfold exec. destruct (f s) as [n|] eqn:Hf.
  - rewrite (applyOptimisticUpdate_returns _ _ _ _ Hf Htid). cbv zeta.
    cbn [store].
    destruct (applyPatches_inverse_recorded tid s n Hs (Hsafe n eq_refl))
      as (x & Hx & Hd).
    rewrite (revertOptimisticUpdate_known tid (ledgerRecord tid s n) _ x);
      [|apply lookup_insert_eq|done].
    cbn [store]. by rewrite Hd.
  - rewrite (applyOptimisticUpdate_throws _ _ _ Hf). cbn [store].
    apply (revertOptimisticUpdate_absent _ _ Hs).
Qed.

(** X9.  Nested optimistic updates unwind: two updates applied one after
    the other under ids that are new to the ledger and are not
    [__proto__], reverted in the reverse order, leave the state from
    before the first, whatever the two recipes do, as long as
    [applyPatches] accepts the inverse patches of both (none passes
    through a property named [__proto__] or [constructor], none ends in
    [__proto__]). *)
Theorem nested_reverts_restore (s : GameState) (t1 t2 : string)
    (f1 f2 : GameState → option GameState) :
  let s1 := exec (applyOptimisticUpdate t1 f1) s in
  pendingTransactions s !! t1 = None →
  pendingTransactions s1 !! t2 = None →
  t1 ≠ "__proto__" →
  t2 ≠ "__proto__" →
  (∀ n, f1 s = Some n →
        safeScript (inversePatches (ledgerRecord t1 s n)) = true) →
  (∀ n, f2 s1 = Some n →
        safeScript (inversePatches (ledgerRecord t2 s1 n)) = true) →
  exec (revertOptimisticUpdate t1)
    (exec (revertOptimisticUpdate t2) (exec (applyOptimisticUpdate t2 f2) s1))
  = s.
Proof.
  intros s1 H1 H2 Hp1 Hp2 Hs1 Hs2. rewrite (exec_revert_apply _ t2 f2 H2 Hp2 Hs2).
  by apply exec_revert_apply.
Qed.

(** ** The scripts of an assignment to one field *)

Lemma concat_fmap_nil {A} (G : string → list A) (ks : list string) :
  (∀ j, j ∈ ks → G j = []) → concat (G <$> ks) = [].
Proof.
  induction ks as [|j ks IH]; intros H; csimpl; [done|].
  rewrite (H j) by set_solver. rewrite IH; [done|]. intros i Hi. apply H. set_solver.
Qed.

Lemma concat_fmap_single {A} (G : string → list A) (ks : list string) k :
  NoDup ks → k ∈ ks → (∀ j, j ∈ ks → j ≠ k → G j = []) →
  concat (G <$> ks) = G k.
Proof.
  induction ks as [|j ks IH]; intros Hnd Hk HG; [set_solver|].
  apply NoDup_cons in Hnd as [Hj Hnd]. csimpl.
  destruct (decide (j = k)) as [->|Hne].
  - rewrite concat_fmap_nil; [by rewrite app_nil_r|].
    intros i Hi. apply HG; set_solver.
  - rewrite (HG j) by set_solver. simpl. apply IH; [done|set_solver|].
    intros i Hi. apply HG. set_solver.
Qed.

Lemma generatePatches_refl d a : generatePatches d a a = [].
Proof. destruct a; [apply generatePatches_same|by destruct d]. Qed.

(** Two objects that differ in one property only: the script is the
    script of that property. *)
Lemma generatePatches_single d k (ox oy : gmap string json) :
  (∀ j, j ≠ k → ox !! j = oy !! j) →
  ox !! k ≠ oy !! k →
  generatePatches (S d) (Some (JObj ox)) (Some (JObj oy))
  = prefix k <$> generatePatches d (ox !! k) (oy !! k).
Proof.
  intros Hsame Hk. rewrite generatePatches_objects by congruence.
  apply (concat_fmap_single
           (λ j, prefix j <$> generatePatches d (ox !! j) (oy !! j))).
  - apply NoDup_elements.
  - rewrite elem_of_elements, elem_of_union, !elem_of_dom.
    destruct (ox !! k) eqn:?, (oy !! k) eqn:?; eauto. done.
  - intros j _ Hj. by rewrite (Hsame j Hj), generatePatches_refl.
Qed.

Lemma height_lookup (o : gmap string json) k c :
  o !! k = Some c → (height c < height (JObj o))%nat.
Proof.
  simpl. revert k c.
  apply (map_fold_weak_ind
    (λ r (m : gmap string json), ∀ k c, m !! k = Some c → (height c < S r)%nat)).
  - intros k c. by rewrite lookup_empty.
  - intros i x m r Hi IH k c. destruct (decide (i = k)) as [->|Hne].
    + rewrite lookup_insert_eq. intros [= ->]. lia.
    + rewrite lookup_insert_ne by done. intros H. specialize (IH k c H). lia.
Qed.

Lemma sub_height p (j : json) l :
  sub p (Some j) = Some l → (List.length p ≤ height j)%nat.
Proof.
  revert j. induction p as [|k rest IH]; intros j; simpl; [lia|].
  destruct j; try done. destruct rest as [|k' rest'].
  - intros _. simpl. lia.
  - destruct (o !! k) as [c|] eqn:Hc; [|done]. intros H.
    apply IH in H. apply height_lookup in Hc. simpl in *. lia.
Qed.

Lemma sub_graft p x l w : sub p x = Some l → sub p (graft p w x) = Some w.
Proof.
  revert x. induction p as [|k rest IH]; intros x; simpl; [done|].
  destruct x as [[]|]; try done. intros H.
  rewrite lookup_set_slot_eq. by apply IH.
Qed.

Lemma graft_self p x l : sub p x = Some l → graft p l x = x.
Proof.
  revert x. induction p as [|k rest IH]; intros x; simpl; [congruence|].
  destruct x as [[]|]; try done. intros H.
  by rewrite (IH _ H), set_slot_self.
Qed.

Lemma graft_graft p x w1 w2 : graft p w2 (graft p w1 x) = graft p w2 x.
Proof.
  revert x. induction p as [|k rest IH]; intros x; simpl; [done|].
  destruct x as [[]|]; try done.
  by rewrite lookup_set_slot_eq, IH, set_slot_set_slot.
Qed.

Lemma graft_ne p x l w : sub p x = Some l → l ≠ w → graft p w x ≠ x.
Proof.
  intros Hsub Hne Heq. apply (sub_graft _ _ _ w) in Hsub as Hg.
  rewrite Heq in Hg. congruence.
Qed.

(** The script between a tree and the same tree with one slot changed
    is the script of that slot, under the path of the slot. *)
Lemma generatePatches_graft d p x l w :
  sub p x = Some l → l ≠ w → (List.length p ≤ d)%nat →
  generatePatches d x (graft p w x)
  = patchAt p (generatePatches (d - List.length p) l w).
Proof.
  revert d x. induction p as [|k rest IH]; intros d x; simpl.
  - intros [= ->] _ _. by rewrite Nat.sub_0_r.
  - destruct x as [[]|]; try done. intros Hsub Hne Hd.
    destruct d as [|d]; [lia|]. simpl (S d - S _).
    rewrite (generatePatches_single _ k).
    + by rewrite lookup_set_slot_eq, (IH d _ Hsub Hne) by lia.
    + intros j Hj. by rewrite lookup_set_slot_ne.
    + rewrite lookup_set_slot_eq. intros Heq. symmetry in Heq.
      by apply (graft_ne _ _ _ _ Hsub Hne).
Qed.

(** One patch on a tree: the slot at its path is changed, or immer
    throws when the path does not resolve. *)
Lemma apply_at_graft p o v x :
  apply_at p o v x = l ← sub p x; Some (graft p (leaf_result o v) x).
Proof.
  revert x. induction p as [|k rest IH]; intros x; simpl.
  - by destruct o.
  - destruct x as [[]|]; try done. rewrite IH.
    by destruct (sub rest (o0 !! k)).
Qed.

Lemma sub_cons_obj k rest (o : gmap string json) :
  sub (k :: rest) (Some (JObj o)) = sub rest (o !! k).
Proof. done. Qed.

Lemma graft_cons_obj k rest w (o : gmap string json) :
  graft (k :: rest) w (Some (JObj o))
  = Some (JObj (set_slot k (graft rest w (o !! k)) o)).
Proof. done. Qed.

Lemma set_slot_Some k v (o : gmap string json) : set_slot k (Some v) o = <[k := v]> o.
Proof. done. Qed.

Lemma lookup_entity_models (e : ParsedEntity) :
  (<["entityId" := JStr (entityId e)]>
     (<["models" := json_of_models (models e)]> (∅ : gmap string json))) !! "models"
  = Some (JObj (JObj <$> models e)).
Proof. by lookup_literal. Qed.

(** The slot of a field in the tree of a state. *)
Lemma sub_fieldPath (X : GameState) id ns m field :
  sub (fieldPath id ns m field) (Some (json_of_state X)) =
  e ← entities X !! id;
  nsModels ← models e !! ns;
  fields ← nsModels !! m ≫= as_object;
  Some (fields !! field).
Proof.
  unfold fieldPath, json_of_state. rewrite sub_cons_obj.
  unfold state_object at 1. rewrite lookup_insert_eq, sub_cons_obj, lookup_fmap.
  destruct (entities X !! id) as [e|]; [|done]. cbn [fmap option_fmap option_map mbind option_bind].
  unfold json_of_entity. rewrite sub_cons_obj, lookup_entity_models.
  rewrite sub_cons_obj, lookup_fmap.
  destruct (models e !! ns) as [nsModels|]; [|done].
  cbn [fmap option_fmap option_map mbind option_bind].
  rewrite sub_cons_obj.
  destruct (nsModels !! m) as [[]|]; try done.
Qed.

(** The tree of a state with a field reset. *)
Lemma json_of_state_resetField (X X' : GameState) id ns m field w :
  resetField id ns m field w X = Some X' →
  graft (fieldPath id ns m field) w (Some (json_of_state X))
  = Some (json_of_state X').
Proof.
  unfold resetField. intros H.
  destruct (entities X !! id) as [e|] eqn:He; [|done].
  cbn [mbind option_bind] in H.
  destruct (models e !! ns) as [nsModels|] eqn:Hns; [|done].
  cbn [mbind option_bind] in H.
  destruct (nsModels !! m) as [[| | | | | |fields]|] eqn:Hm; try done.
  cbn [mbind option_bind as_object] in H. injection H as <-.
  unfold fieldPath, json_of_state. rewrite graft_cons_obj.
  unfold state_object at 1. rewrite lookup_insert_eq, graft_cons_obj, lookup_fmap, He.
  cbn [fmap option_fmap option_map]. unfold json_of_entity at 1.
  rewrite graft_cons_obj, lookup_entity_models, graft_cons_obj, lookup_fmap, Hns.
  cbn [fmap option_fmap option_map].
  rewrite graft_cons_obj, Hm, graft_cons_obj. cbn [graft].
  rewrite !set_slot_Some. do 2 f_equal.
  unfold state_object. cbn [entities pendingTransactions].
  rewrite insert_insert_eq. do 2 f_equal.
  rewrite fmap_insert. do 2 f_equal.
  unfold json_of_entity. cbn [entityId models]. f_equal.
  rewrite (insert_insert_ne _ "models" "entityId") by done.
  rewrite insert_insert_eq. do 2 f_equal.
  unfold json_of_models. by rewrite fmap_insert.
Qed.

Lemma resetField_sub (X : GameState) id ns m field w :
  resetField id ns m field w X = None ↔
  sub (fieldPath id ns m field) (Some (json_of_state X)) = None.
Proof.
  rewrite sub_fieldPath. unfold resetField.
  destruct (entities X !! id) as [e|]; [|done]. cbn [mbind option_bind].
  destruct (models e !! ns) as [nsModels|]; [|done]. cbn [mbind option_bind].
  by destruct (nsModels !! m) as [[]|].
Qed.

Lemma assignField_resetField id ns m field v (s : GameState) :
  field ≠ "__proto__" →
  assignField id ns m field v s = resetField id ns m field (Some v) s.
Proof. intros H. by rewrite assignField_fields. Qed.

Lemma assignField_sub id ns m field v (s n : GameState) :
  field ≠ "__proto__" →
  assignField id ns m field v s = Some n →
  sub (fieldPath id ns m field) (Some (json_of_state s))
  = Some (fieldOf s id ns m field).
Proof.
  intros Hfield. rewrite (assignField_fields _ _ _ _ _ _ Hfield).
  rewrite sub_fieldPath. unfold fieldOf, readField, model_at.
  destruct (entities s !! id) as [e|]; [|done]. cbn [mbind option_bind].
  destruct (models e !! ns) as [nsModels|]; [|done]. cbn [mbind option_bind].
  by destruct (nsModels !! m) as [[]|].
Qed.

(** The record that [applyOptimisticUpdate] writes for an assignment of
    a value that is no object to one field: one patch at the path of
    the field, and the patch that restores what the field held. *)
Lemma ledgerRecord_assignField tid id ns m field v (s n : GameState) :
  field ≠ "__proto__" →
  assignField id ns m field v s = Some n →
  is_object v = false →
  fieldOf s id ns m field ≠ Some v →
  ledgerRecord tid s n =
  {| transactionId := tid;
     patches :=
       [assignPatch (fieldPath id ns m field) (fieldOf s id ns m field) v];
     inversePatches :=
       [restorePatch (fieldPath id ns m field) (fieldOf s id ns m field)] |}.
Proof.
  intros Hfield Hf Hv Hold.
  pose proof (assignField_sub _ _ _ _ _ _ _ Hfield Hf) as Hsub.
  pose proof Hf as Hg. rewrite assignField_resetField in Hg by done.
  apply json_of_state_resetField in Hg.
  set (p := fieldPath id ns m field) in *.
  set (old := fieldOf s id ns m field) in *.
  unfold ledgerRecord. cbv zeta.
  set (d := height (json_of_state s) `max` height (json_of_state n)).
  assert (6 ≤ d)%nat as Hd.
  { apply sub_height in Hsub. change (List.length p) with 6%nat in Hsub.
    unfold d. lia. }
  clearbody d. f_equal.
  - rewrite <- Hg, (generatePatches_graft d p _ old) by done.
    unfold assignPatch. destruct old as [o|].
    + assert (o ≠ v) by congruence.
      destruct (d - List.length p)%nat, o, v; simpl; try done;
        by rewrite decide_False.
    + by destruct (d - List.length p)%nat.
  - assert (Some (json_of_state s) = graft p old (Some (json_of_state n))) as Hs.
    { by rewrite <- Hg, graft_graft, (graft_self _ _ _ Hsub). }
    rewrite Hs.
    rewrite (generatePatches_graft d p _ (Some v)); [| |done|done].
    2: { rewrite <- Hg. by apply (sub_graft _ _ old). }
    unfold restorePatch. destruct old as [o|].
    + assert (v ≠ o) by congruence.
      destruct (d - List.length p)%nat, o, v; simpl; try done;
        by rewrite decide_False.
    + by destruct (d - List.length p)%nat.
Qed.

Lemma passes_reserved_fieldPath id ns m field :
  passes_reserved (fieldPath id ns m field)
  = reserved id || reserved ns || reserved m.
Proof.
  unfold passes_reserved, fieldPath. cbn [removelast existsb].
  change (reserved "entities") with false. change (reserved "models") with false.
  by destruct (reserved id), (reserved ns), (reserved m).
Qed.

(** One patch at the path of a field other than [__proto__], on a
    state: immer refuses it when the entity, the namespace or the model
    has a reserved name; otherwise the field is reset, or immer throws
    when the entity, the namespace or the model is not there any
    more. *)
Lemma applyPatches_field (X : GameState) (q : Patch) id ns m field :
  path q = fieldPath id ns m field →
  field ≠ "__proto__" →
  applyPatches X [q] =
    if reserved id || reserved ns || reserved m then None
    else resetField id ns m field (leaf_result (op q) (value q)) X.
Proof.
  intros Hq Hfield. unfold applyPatches, applyPatches_json.
  rewrite last_root_replace_nonroot by (constructor; [by rewrite Hq|done]).
  cbn [applyPatches_]. rewrite applyPatch_passes;
    [|by rewrite Hq|rewrite Hq; cbn; congruence].
  rewrite Hq, passes_reserved_fieldPath.
  destruct (reserved id || reserved ns || reserved m); [done|].
  rewrite apply_at_graft.
  destruct (resetField id ns m field (leaf_result (op q) (value q)) X)
    as [X'|] eqn:HX.
  - rewrite (json_of_state_resetField _ _ _ _ _ _ _ HX).
    destruct (sub (fieldPath id ns m field) (Some (json_of_state X))) eqn:Hsub.
    + cbn. apply state_of_json_of_state.
    + apply (proj2 (resetField_sub X id ns m field
                      (leaf_result (op q) (value q)))) in Hsub.
      congruence.
  - apply resetField_sub in HX. by rewrite HX.
Qed.

Lemma op_restorePatch p old :
  leaf_result (op (restorePatch p old)) (value (restorePatch p old)) = old.
Proof. by destruct old. Qed.

Lemma path_restorePatch p old : path (restorePatch p old) = p.
Proof. by destruct old. Qed.

(** X10.  The ledger record of an assignment to one field.  When the
    recipe [draft.entities[id].models.NS.M.field = V] returns, neither
    the field nor [tid] is [__proto__], [V] is no
    object and the field did not hold [V] already, the record that
    [applyOptimisticUpdate] writes under [tid] has exactly one patch,
    at the path [entities/id/models/NS/M/field] ([replace], or [add]
    for a field that was not there, with [V]), and exactly one inverse
    patch at the same path ([replace] with the old value, or
    [remove]). *)
Theorem assignment_recorded_as_one_patch (s n : GameState)
    (tid id ns m field : string) (v : json) :
  assignField id ns m field v s = Some n →
  field ≠ "__proto__" →
  tid ≠ "__proto__" →
  is_object v = false →
  fieldOf s id ns m field ≠ Some v →
  pendingTransactions
    (exec (applyOptimisticUpdate tid (assignField id ns m field v)) s) !! tid =
  Some {| transactionId := tid;
          patches :=
            [ {| op := match fieldOf s id ns m field with
                       | Some _ => Replace
                       | None => Add
                       end;
                 path := ["entities"; id; "models"; ns; m; field];
                 value := Some v |} ];
          inversePatches :=
            [ match fieldOf s id ns m field with
              | Some old =>
                  {| op := Replace;
                     path := ["entities"; id; "models"; ns; m; field];
                     value := Some old |}
              | None =>
                  {| op := Remove;
                     path := ["entities"; id; "models"; ns; m; field];
                     value := None |}
              end ] |}.
Proof.
  intros Hf Hfield Htid Hv Hold. unfold exec.
  rewrite (applyOptimisticUpdate_returns _ _ _ _ Hf Htid). cbv zeta. cbn [store].
  rewrite (ledgerRecord_assignField _ _ _ _ _ _ _ _ Hfield Hf Hv Hold).
  cbn [insertTransaction pendingTransactions transactionId].
  by rewrite lookup_insert_eq.
Qed.

(** Reverting an assignment to one field, on whatever state holds its
    record: the field is reset in that state, or the call throws. *)
Lemma revert_assignField tid id ns m field v (s n X : GameState) :
  assignField id ns m field v s = Some n →
  field ≠ "__proto__" →
  is_object v = false →
  fieldOf s id ns m field ≠ Some v →
  pendingTransactions X !! tid = Some (ledgerRecord tid s n) →
  revertOptimisticUpdate tid X =
  match (if reserved id || reserved ns || reserved m then None
         else resetField id ns m field (fieldOf s id ns m field) X) with
  | Some X' =>
      {| result := Some tt; store := deleteTransaction tid X';
         notified := [X'; deleteTransaction tid X'] |}
  | None => {| result := None; store := X; notified := [] |}
  end.
Proof.
  intros Hf Hfield Hv Hold HX.
  pose proof (ledgerRecord_assignField tid _ _ _ _ _ _ _ Hfield Hf Hv Hold) as Hrec.
  assert (applyPatches X (inversePatches (ledgerRecord tid s n))
          = if reserved id || reserved ns || reserved m then None
            else resetField id ns m field (fieldOf s id ns m field) X) as Hp.
  { rewrite Hrec. cbn [inversePatches].
    rewrite (applyPatches_field _ _ id ns m field);
      [|apply path_restorePatch|done].
    by rewrite op_restorePatch. }
  destruct (if reserved id || reserved ns || reserved m then None
            else resetField id ns m field (fieldOf s id ns m field) X) as [X'|].
  - by apply (revertOptimisticUpdate_known _ _ _ _ HX).
  - by apply (revertOptimisticUpdate_stale _ _ _ HX).
Qed.

(** X11.  Revert works on the current state and touches one field only.
    After an optimistic assignment to one field other than [__proto__]
    of a model of an entity, none of them with a reserved name (of a
    value that is no
    object and that the field did not hold), whatever happened to the
    store since, as long as the record is still in the ledger and the
    entity still has the model as an object: [revertOptimisticUpdate]
    returns and leaves the current state with that one field put back
    to what it held before the assignment (or deleted if it was not
    there) and without the ledger entry; every other entity, model and
    field of the current state stays, and a value that arrived for the
    field in the meantime is overwritten. *)
Theorem revert_resets_field_in_current_state (s n X : GameState)
    (tid id ns m field : string) (v : json) (e : ParsedEntity)
    (nsModels fields : gmap string json) :
  assignField id ns m field v s = Some n →
  field ≠ "__proto__" →
  reserved id = false →
  reserved ns = false →
  reserved m = false →
  is_object v = false →
  fieldOf s id ns m field ≠ Some v →
  pendingTransactions X !! tid = Some (ledgerRecord tid s n) →
  entities X !! id = Some e →
  models e !! ns = Some nsModels →
  nsModels !! m = Some (JObj fields) →
  let old := fieldOf s id ns m field in
  let e' := {| entityId := entityId e;
               models := <[ns := <[m := JObj (set_slot field old fields)]> nsModels]>
                           (models e) |} in
  result (revertOptimisticUpdate tid X) = Some tt
  ∧ entities (exec (revertOptimisticUpdate tid) X) = <[id := e']> (entities X)
  ∧ pendingTransactions (exec (revertOptimisticUpdate tid) X)
    = delete tid (pendingTransactions X)
  ∧ fieldOf (exec (revertOptimisticUpdate tid) X) id ns m field = old.
Proof.
  intros Hf Hfield Hrid Hrns Hrm Hv Hold HX He Hns Hm old e'. unfold exec.
  rewrite (revert_assignField _ _ _ _ _ _ _ _ _ Hf Hfield Hv Hold HX).
  rewrite Hrid, Hrns, Hrm. cbn [orb].
  unfold resetField. rewrite He. cbn [mbind option_bind]. rewrite Hns.
  cbn [mbind option_bind]. rewrite Hm. cbn [mbind option_bind as_object].
  cbn [result store deleteTransaction entities pendingTransactions].
  split; [done|]. split; [done|]. split; [done|].
  subst old e'. generalize (fieldOf s id ns m field). intros old.
  unfold fieldOf, deleteTransaction. cbn [entities].
  rewrite lookup_insert_eq. cbn [mbind option_bind].
  unfold readField, model_at. cbn [models].
  rewrite lookup_insert_eq. cbn [mbind option_bind].
  rewrite lookup_insert_eq. apply lookup_set_slot_eq.
Qed.

(** X12.  A stale revert throws.  After an optimistic assignment to one
    field other than [__proto__] (of a value that is no object and that
    the field did not
    hold), if the entity has meanwhile gone, or has been replaced by
    one in which the namespace or the model is missing or the model is
    neither an object nor an array, the path of the inverse patch does
    not resolve: [revertOptimisticUpdate] throws, installs nothing,
    notifies nobody, and the ledger entry stays. *)
Theorem stale_revert_throws (s n X : GameState)
    (tid id ns m field : string) (v : json) :
  assignField id ns m field v s = Some n →
  field ≠ "__proto__" →
  is_object v = false →
  fieldOf s id ns m field ≠ Some v →
  pendingTransactions X !! tid = Some (ledgerRecord tid s n) →
  (∀ e mv, entities X !! id = Some e →
           model_at (models e) ns m = Some mv →
           is_object mv = false ∧ is_array mv = false) →
  revertOptimisticUpdate tid X = {| result := None; store := X; notified := [] |}.
Proof.
  intros Hf Hfield Hv Hold HX Hgone.
  rewrite (revert_assignField _ _ _ _ _ _ _ _ _ Hf Hfield Hv Hold HX).
  destruct (reserved id || reserved ns || reserved m); [done|].
  assert (resetField id ns m field (fieldOf s id ns m field) X = None) as ->;
    [|done].
  unfold resetField. destruct (entities X !! id) as [e|] eqn:He; [|done].
  cbn [mbind option_bind]. specialize (Hgone e). unfold model_at in Hgone.
  destruct (models e !! ns) as [nsModels|]; [|done]. cbn [mbind option_bind] in *.
  destruct (nsModels !! m) as [[]|]; try done.
  by destruct (Hgone _ eq_refl eq_refl).
Qed.

(** ** The optimistic update of [spawn] *)

Lemma applyOptimisticUpdate_unchanged tid f (s : GameState) :
  f s = Some s →
  tid ≠ "__proto__" →
  applyOptimisticUpdate tid f s =
  let s' := insertTransaction
              {| transactionId := tid; patches := []; inversePatches := [] |} s in
  {| result := Some tt; store := s'; notified := [s; s'] |}.
Proof.
  intros Hf Htid. rewrite (applyOptimisticUpdate_returns _ _ _ _ Hf Htid).
  unfold ledgerRecord. cbv zeta. by rewrite generatePatches_same.
Qed.

Lemma assignField_same id ns m field v (s : GameState) :
  field ≠ "__proto__" →
  fieldOf s id ns m field = Some v →
  assignField id ns m field v s = Some s.
Proof.
  intros Hfield. rewrite (assignField_fields _ _ _ _ _ _ Hfield).
  unfold fieldOf, readField, model_at. intros H.
  destruct (entities s !! id) as [e|] eqn:He; [|done].
  cbn [mbind option_bind] in *.
  destruct (models e !! ns) as [nsModels|] eqn:Hns; [|done].
  cbn [mbind option_bind] in *.
  destruct (nsModels !! m) as [[| | | | | |fields]|] eqn:Hm; try done.
  cbn [mbind option_bind as_object]. f_equal.
  apply GameState_eq; [|done]. cbn [entities].
  rewrite (insert_id fields), (insert_id nsModels), (insert_id (models e)) by done.
  apply insert_id. rewrite He. by destruct e.
Qed.

Lemma spawnRecipe_unchanged id n (s : GameState) :
  (∀ e mv, entities s !! id = Some e →
           model_at (models e) "dojo_starter" "Moves" = Some mv →
           truthy mv = false)
  ∨ fieldOf s id "dojo_starter" "Moves" "remaining" = Some (JNum n) →
  spawnRecipe id n s = Some s.
Proof.
  unfold spawnRecipe, getProperty. intros [H|H].
  - destruct (entities s !! id) as [e|]; [|by case_decide].
    destruct (model_at (models e) "dojo_starter" "Moves") as [mv|] eqn:Hm; [|done].
    by rewrite (H e mv eq_refl Hm).
  - assert ("remaining" ≠ "__proto__") as Hfield by done.
    pose proof (assignField_same _ _ _ _ _ _ Hfield H) as Ha.
    unfold fieldOf, readField in H.
    destruct (entities s !! id) as [e|]; [|done]. cbn [mbind option_bind] in H.
    destruct (model_at (models e) "dojo_starter" "Moves") as [[]|]; try done.
Qed.

(** X13.  The optimistic update of [spawn] that has nothing to change.
    When the player's entity is not cached, or has no truthy
    [dojo_starter.Moves] model, or already has [remaining] equal to the
    value to set, the update returns, changes no entity and records
    under [tid] a transaction whose two scripts are empty; the two
    snapshots it notifies differ in that record only.  The transaction
    id of [spawn] is a uuid; were it [__proto__], which a draft refuses
    to write, the update would notify the state once and throw, with
    nothing recorded. *)
Theorem spawn_update_nothing_to_change (s : GameState) (tid id : string) (n : Z) :
  (∀ e mv, entities s !! id = Some e →
           model_at (models e) "dojo_starter" "Moves" = Some mv →
           truthy mv = false)
  ∨ fieldOf s id "dojo_starter" "Moves" "remaining" = Some (JNum n) →
  applyOptimisticUpdate tid (spawnRecipe id n) s =
  if decide (tid = "__proto__")
  then {| result := None; store := s; notified := [s] |}
  else
    {| result := Some tt;
       store :=
         {| entities := entities s;
            pendingTransactions :=
              <[tid := {| transactionId := tid; patches := [];
                          inversePatches := [] |}]> (pendingTransactions s) |};
       notified :=
         [s; {| entities := entities s;
                pendingTransactions :=
                  <[tid := {| transactionId := tid; patches := [];
                              inversePatches := [] |}]> (pendingTransactions s) |}] |}.
Proof.
  intros H. apply spawnRecipe_unchanged in H.
  destruct (decide (tid = "__proto__")) as [->|Htid].
  - by rewrite (applyOptimisticUpdate_proto _ _ _ H).
  - by rewrite (applyOptimisticUpdate_unchanged _ _ _ H Htid).
Qed.

Lemma spawnRecipe_assigns id n (s : GameState) e fields :
  entities s !! id = Some e →
  model_at (models e) "dojo_starter" "Moves" = Some (JObj fields) →
  spawnRecipe id n s
  = assignField id "dojo_starter" "Moves" "remaining" (JNum n) s
  ∧ is_Some (spawnRecipe id n s).
Proof.
  intros He Hm. unfold spawnRecipe. rewrite (getProperty_Own _ _ _ He), Hm.
  cbn [truthy].
  split; [done|]. rewrite assignField_fields by done.
  unfold model_at in *. rewrite He.
  cbn [mbind option_bind].
  destruct (models e !! "dojo_starter") as [nsModels|]; [|done].
  cbn [mbind option_bind] in *. rewrite Hm. by eexists.
Qed.

(** X14.  The wait of [spawn] after an update that took effect.  When
    the player's entity has the [dojo_starter.Moves] model as an
    object, the optimistic update of [spawn] sets [remaining] to the
    very value that [spawn] then waits for: started on the state that
    the update left, [waitForEntityChange] with the predicate of
    [spawn] finds the predicate true in the call that [subscribe]
    makes at once, throws there, and leaves the promise rejected with
    the [ReferenceError] and the listener registered. *)
Theorem spawn_wait_rejected_at_once (s : GameState) (tid id : string) (n : Z)
    (e : ParsedEntity) (fields : gmap string json) :
  entities s !! id = Some e →
  model_at (models e) "dojo_starter" "Moves" = Some (JObj fields) →
  waitForEntityChange id (remainingIs n)
    (exec (applyOptimisticUpdate tid (spawnRecipe id n)) s) =
  {| promise := Rejected (ReferenceError "timer"); subscribed := true;
     unsubscribe_bound := false; timer_bound := false; timer_armed := false |}.
Proof.
  intros He Hm.
  destruct (spawnRecipe_assigns id n s e fields He Hm) as [Heq [x Hx]].
  apply waitForEntityChange_already_satisfied.
  rewrite (entities_applyOptimisticUpdate _ _ _ _ Hx).
  rewrite Heq in Hx.
  assert ("remaining" ≠ "__proto__") as Hfield by done.
  destruct (readField_assignField _ _ _ _ _ _ _ Hfield Hx) as (e' & He' & Hr).
  rewrite (getProperty_Own _ _ _ He').
  unfold remainingIs. by rewrite Hr, bool_decide_eq_true.
Qed.

(** ** The catch and finally blocks of [spawn] *)

(** When the recipe of [spawn] changes the state, it is the assignment
    of a value that the field did not hold. *)
Lemma spawnRecipe_changes id n (s x : GameState) :
  spawnRecipe id n s = Some x →
  x ≠ s →
  assignField id "dojo_starter" "Moves" "remaining" (JNum n) s = Some x
  ∧ fieldOf s id "dojo_starter" "Moves" "remaining" ≠ Some (JNum n).
Proof.
  intros Hf Hne.
  assert (assignField id "dojo_starter" "Moves" "remaining" (JNum n) s = Some x)
    as Ha.
  { unfold spawnRecipe in Hf.
    destruct (getProperty (entities s) id) as [e| |]; try congruence.
    destruct (model_at (models e) "dojo_starter" "Moves") as [mv|];
      try congruence.
    destruct (truthy mv); congruence. }
  split; [done|]. intros Hsame.
  assert ("remaining" ≠ "__proto__") as Hfield by done.
  rewrite (assignField_same _ _ _ _ _ _ Hfield Hsame) in Ha. congruence.
Qed.

(** The inverse patches of the update of [spawn] walk through the
    entity id and the names of the model only: [applyPatches] accepts
    them unless the entity id is a reserved name and there is
    something to restore. *)
Lemma spawnRecipe_safe tid id n (s x : GameState) :
  reserved id = false ∨ x = s →
  spawnRecipe id n s = Some x →
  safeScript (inversePatches (ledgerRecord tid s x)) = true.
Proof.
  intros Hid Hf. destruct (decide (x = s)) as [->|Hne].
  { unfold ledgerRecord. cbv zeta. cbn [inversePatches].
    by rewrite generatePatches_same. }
  destruct Hid as [Hid|?]; [|done].
  destruct (spawnRecipe_changes _ _ _ _ Hf Hne) as [Ha Hold].
  assert ("remaining" ≠ "__proto__") as Hfield by done.
  rewrite (ledgerRecord_assignField tid _ _ _ _ _ _ _ Hfield Ha eq_refl Hold).
  cbn [inversePatches safeScript forallb]. rewrite path_restorePatch.
  unfold safePath. rewrite passes_reserved_fieldPath, Hid. reflexivity.
Qed.

Lemma pendingTransactions_assignField id ns m field v (s n : GameState) :
  assignField id ns m field v s = Some n →
  pendingTransactions n = pendingTransactions s.
Proof.
  unfold assignField, assignProto. intros H.
  destruct (own (getProperty (entities s) id)) as [e|]; [|done].
  cbn [mbind option_bind] in H.
  destruct (models e !! ns) as [nsModels|]; [|done].
  cbn [mbind option_bind] in H.
  destruct (nsModels !! m) as [target|]; [|done].
  cbn [mbind option_bind] in H.
  destruct (decide (field = "__proto__")).
  - destruct target; try done; try congruence.
    destruct (is_primitive v); congruence.
  - destruct (as_object target); [|done]. cbn [mbind option_bind] in H.
    by injection H as <-.
Qed.

Lemma deleteTransaction_insertTransaction tid t (n : GameState) :
  transactionId t = tid →
  pendingTransactions n !! tid = None →
  deleteTransaction tid (insertTransaction t n) = n.
Proof.
  intros Ht Hn. destruct n as [es ts]. unfold deleteTransaction, insertTransaction.
  cbn [entities pendingTransactions] in *. rewrite Ht.
  by rewrite delete_insert_eq, delete_id.
Qed.

(** X15.  [spawn] whose action fails.  With a transaction id that is new
    to the ledger and nothing else touching the store in between, the
    optimistic update followed by the [catch] block (revert, rethrow)
    and the [finally] block (confirm) ends with the exception, and
    leaves the cache exactly as it was, entities and ledger.  This is
    so for the ids that [spawn] uses: a uuid for the transaction and a
    hash in hexadecimal for the entity.  For the transaction id
    [__proto__], which a draft refuses to write, and for an entity id
    that [applyPatches] refuses to walk through ([__proto__],
    [constructor]), nothing is restored: the cache is left as the
    recipe made it. *)
Theorem spawn_failure_restores (s : GameState) (tid id : string) (n : Z) :
  pendingTransactions s !! tid = None →
  let r := (applyOptimisticUpdate tid (spawnRecipe id n) ;; spawnSettle tid true) s in
  result r = None
  ∧ (tid ≠ "__proto__" → reserved id = false → store r = s)
  ∧ (tid = "__proto__" ∨ reserved id = true →
     store r = default s (spawnRecipe id n s)).
Proof.
  intros Hs r. subst r. unfold mbind, StoreM_bind, bind.
  destruct (spawnRecipe id n s) as [x|] eqn:Hf; cbn [default];
    [|by rewrite (applyOptimisticUpdate_throws _ _ _ Hf)].
  destruct (decide (tid = "__proto__")) as [->|Htid].
  { rewrite (applyOptimisticUpdate_proto _ _ _ Hf). cbn [result store].
    split; [done|]. split; [by intros ?|done]. }
  rewrite (applyOptimisticUpdate_returns _ _ _ _ Hf Htid). cbv zeta.
  cbn [result store notified].
  unfold spawnSettle, tryFinally, mbind, StoreM_bind, bind.
  destruct (decide (reserved id = false ∨ x = s)) as [Hsafe|Hbad].
  - destruct (applyPatches_inverse_recorded tid s x Hs
                (spawnRecipe_safe tid id n s x Hsafe Hf)) as (y & Hy & Hd).
    rewrite (revertOptimisticUpdate_known tid (ledgerRecord tid s x) _ y);
      [|apply lookup_insert_eq|done].
    cbn [result store notified throw]. rewrite Hd.
    rewrite (confirmTransaction_state s tid Hs). cbn [result store].
    split; [done|]. split; [done|]. intros [?|Hid]; [done|].
    destruct Hsafe as [? | ->]; [congruence|done].
  - assert (reserved id = true ∧ x ≠ s) as [Hid Hne].
    { destruct (reserved id), (decide (x = s)); naive_solver. }
    destruct (spawnRecipe_changes _ _ _ _ Hf Hne) as [Ha Hold].
    assert ("remaining" ≠ "__proto__") as Hfield by done.
    rewrite (revert_assignField tid _ _ _ _ _ s x _ Ha Hfield eq_refl Hold)
      by apply lookup_insert_eq.
    rewrite Hid. cbn [orb result store notified throw].
    unfold confirmTransaction, update, produce, set. cbn [result store].
    rewrite deleteTransaction_insertTransaction; [|done|].
    + split; [done|]. split; [|done]. intros _ ?. congruence.
    + by rewrite (pendingTransactions_assignField _ _ _ _ _ _ _ Ha).
Qed.

(** X16.  [spawn] never leaks its ledger entry.  However the [try] block
    ended and whatever state the store is in, after the [catch] and
    [finally] blocks the ledger has no entry for the transaction: the
    [finally] block confirms even when the revert of the [catch] block
    throws.  The entry aside, the blocks leave what the revert left
    (the state they found, when the revert threw or the [try] block
    did not throw), and they end with an exception exactly when the
    [try] block did. *)
Theorem spawnSettle_clears_ledger (X : GameState) (tid : string) (tryThrew : bool) :
  let r := spawnSettle tid tryThrew X in
  pendingTransactions (store r) !! tid = None
  ∧ store r =
      deleteTransaction tid
        (if tryThrew then exec (revertOptimisticUpdate tid) X else X)
  ∧ (result r = None ↔ tryThrew = true).
Proof.
  unfold spawnSettle, tryFinally, exec. cbn [store result]. split; [|split].
  - simpl. apply lookup_delete_eq.
  - destruct tryThrew; [|done]. unfold mbind, StoreM_bind, bind.
    by destruct (result (revertOptimisticUpdate tid X)).
  - destruct tryThrew; [|done]. unfold mbind, StoreM_bind, bind.
    by destruct (result (revertOptimisticUpdate tid X)).
Qed.

(** ** The waiter, once registered *)

Section WaiterEvents.
Context (id : string) (pred : Property ParsedEntity → bool).

(** X17.  A wait that starts while the predicate is false is settled by
    the first snapshot that satisfies the predicate: the promise is
    resolved with the entity of that snapshot, the listener is
    deregistered and the timer cleared.  Nothing that follows changes
    it: neither later snapshots, whether they satisfy the predicate
    or not, nor the timer. *)
Theorem wait_resolves_with_first_match (timeout : nat) (cur x : GameState)
    (before after : list GameState) :
  pred (getProperty (entities cur) id) = false →
  Forall (λ s, pred (getProperty (entities s) id) = false) before →
  pred (getProperty (entities x) id) = true →
  let settled := {| promise := Resolved (getProperty (entities x) id); subscribed := false;
                    unsubscribe_bound := true; timer_bound := true;
                    timer_armed := false |} in
  deliver id pred (before ++ [x]) (waitForEntityChange id pred cur) = settled
  ∧ deliver id pred after settled = settled
  ∧ timer_fires timeout settled = settled.
Proof.
  intros Hcur Hbefore Hx settled.
  rewrite (waitForEntityChange_registers _ _ _ Hcur).
  rewrite deliver_app, (deliver_unsatisfied _ _ _ _ Hbefore), deliver_cons.
  unfold notify, listener. cbn [subscribed timer_bound unsubscribe_bound].
  rewrite Hx. split; [done|]. split; [|done].
  by apply deliver_unsubscribed.
Qed.

(** X18.  A wait that starts while the predicate is false and sees only
    snapshots that do not satisfy it until its timer fires is rejected
    with the timeout error, which carries the timeout asked for, and is
    deregistered; a snapshot that satisfies the predicate after that
    comes too late and changes nothing. *)
Theorem wait_times_out_and_stays_rejected (timeout : nat) (cur : GameState)
    (states late : list GameState) :
  pred (getProperty (entities cur) id) = false →
  Forall (λ s, pred (getProperty (entities s) id) = false) states →
  let rejected := {| promise := Rejected (TimeoutExceeded timeout);
                     subscribed := false; unsubscribe_bound := true;
                     timer_bound := true; timer_armed := false |} in
  timer_fires timeout
    (deliver id pred states (waitForEntityChange id pred cur)) = rejected
  ∧ deliver id pred late rejected = rejected.
Proof.
  intros Hcur Hs rejected.
  rewrite (deliver_unsatisfied _ _ _ _ Hs).
  rewrite (waitForEntityChange_registers _ _ _ Hcur).
  split; [done|]. by apply deliver_unsubscribed.
Qed.
End WaiterEvents.

(** ** The entity view *)

Lemma derivedEntity_present id held (snapshots : list GameState) :
  omap own (derivedEntity id held snapshots)
  = omap (λ s, entities s !! id) snapshots.
Proof.
  revert held. induction snapshots as [|s rest IH]; intros held; [done|].
  cbn [derivedEntity]. unfold getProperty.
  destruct held as [h| |], (entities s !! id) as [e|] eqn:He;
    try case_decide; cbn [safe_not_equal]; csimpl; rewrite ?He; csimpl;
    by rewrite IH.
Qed.

(** X19.  [subscribeToEntity] does not miss an entity.  The listener is
    called at once with what [entities[entityId]] reads as in the
    current state (the entity, or [undefined], or a property of
    [Object.prototype]), and the entities it is called with over time
    are exactly the entities that the successive states hold under the
    id, one call per state in which the entity is present, in order,
    whether or not the entity changed. *)
Theorem subscribeToEntity_reports_every_entity (id : string)
    (cur : GameState) (snapshots : list GameState) :
  head (subscribeToEntity id cur snapshots) = Some (getProperty (entities cur) id)
  ∧ omap own (subscribeToEntity id cur snapshots)
    = omap (λ s, entities s !! id) (cur :: snapshots).
Proof.
  split; [done|]. unfold subscribeToEntity. csimpl.
  rewrite derivedEntity_present. unfold getProperty.
  destruct (entities cur !! id); [done|]. by case_decide.
Qed.

(** ** The callbacks of the indexer *)

Lemma updateEntity_frame (u : PartialEntity) (s : GameState) :
  dom (entities s) ⊆ dom (entities (store (updateEntity u s)))
  ∧ pendingTransactions (store (updateEntity u s)) = pendingTransactions s
  ∧ ∀ id, (∀ i, partial_entityId u = Some i → id ≠ i) →
          entities (store (updateEntity u s)) !! id = entities s !! id.
Proof.
  fold (exec (updateEntity u) s).
  destruct (exec_updateEntity_cases u s) as [->|(id & ms & -> & _ & _ & _ & ->)];
    [done|].
  cbn [insertEntity entities pendingTransactions entityId partial_entityId].
  split; [|split; [done|]].
  - rewrite dom_insert_L. set_solver.
  - intros i Hi. rewrite lookup_insert_ne; [done|]. intros ->. by apply (Hi i).
Qed.

(** [updateEntity] throws exactly for the id [__proto__] with models,
    and then installs nothing. *)
Lemma updateEntity_result (u : PartialEntity) (s : GameState) :
  (result (updateEntity u s) = None ↔
     partial_entityId u = Some "__proto__" ∧ is_Some (partial_models u))
  ∧ (result (updateEntity u s) = None →
     store (updateEntity u s) = s ∧ notified (updateEntity u s) = []).
Proof.
  rewrite updateEntity_run. destruct u as [[id|] [ms|]];
    cbn [partial_entityId partial_models];
    try (split; [split; [done|by intros [[=] [? [=]]]]|done]).
  - destruct (decide (id = "")) as [->|Hid].
    { split; [split; [done|by intros [[=] _]]|done]. }
    destruct (getProperty (entities s) id) as [ex| |] eqn:Hg.
    + destruct (decide (id = "__proto__")) as [->|Hp]; cbn [result store notified].
      * split; [split; [eauto|done]|done].
      * split; [split; [done|by intros [[=] _]]|done].
    + destruct (decide (id = "__proto__")) as [->|Hp]; cbn [result store notified].
      * split; [split; [eauto|done]|done].
      * split; [split; [done|by intros [[=] _]]|done].
    + cbn [result]. split; [|done]. split; [done|]. intros [[= ->] _].
      unfold getProperty in Hg. destruct (entities s !! "__proto__"); [done|].
      by rewrite decide_True in Hg by apply proto_in_Object_prototype.
Qed.

(** X20.  The subscription callback.  Whatever the response, the
    callback never removes an entity and never touches the ledger; it
    changes or adds at most the entity named by the first element of
    [data] and ignores the others.  It ignores a first element whose id
    is ["0x0"] (nothing is installed or notified), and it throws, with
    the store untouched, exactly when there is no error and [data] is
    an empty array or its first element has the id [__proto__]. *)
Theorem onEntityUpdate_touches_one_entity (response : Response) (s : GameState) :
  let r := onEntityUpdate response s in
  dom (entities s) ⊆ dom (entities (store r))
  ∧ pendingTransactions (store r) = pendingTransactions s
  ∧ (∀ id, (∀ first rest, data response = Some (first :: rest) →
                          id ≠ entityId first) →
           entities (store r) !! id = entities s !! id)
  ∧ (∀ first rest, data response = Some (first :: rest) →
                   entityId first = "0x0" →
                   store r = s ∧ notified r = [])
  ∧ (result r = None ↔
       error response = false
       ∧ (data response = Some []
          ∨ ∃ first rest, data response = Some (first :: rest)
                          ∧ entityId first = "__proto__"))
  ∧ (result r = None → store r = s ∧ notified r = []).
Proof.
  unfold onEntityUpdate.
  destruct (error response), (data response) as [[|first rest]|];
    cbn [result store notified mret StoreM_ret ret throw];
    try (split_and!; [done|done|done|done|naive_solver|done]).
  destruct (decide (entityId first = "0x0")) as [H0|H0].
  { cbn [result store notified mret StoreM_ret ret].
    split_and!; [done|done|done|done| |done].
    split; [done|]. intros [_ [[=]|(f & r & [= <- _] & Hp)]].
    rewrite Hp in H0. discriminate. }
  pose proof (updateEntity_frame (asPartial first) s) as (Hd & Hl & Ho).
  pose proof (updateEntity_result (asPartial first) s) as (Hr & Hs).
  split_and!; try done.
  - intros id Hid. apply Ho. intros ? [= <-]. by apply (Hid first rest).
  - intros f r [= <- <-] ?. done.
  - rewrite Hr. cbn [asPartial partial_entityId partial_models]. split.
    + intros [[= Hp] _]. split; [done|]. right. by exists first, rest.
    + intros [_ [[=]|(f & r & [= <- _] & Hp)]]. rewrite Hp. eauto.
Qed.

(** X21.  An update for an entity that the cache does not hold is lost.
    The subscription is set up before the initial fetch; as long as the
    cache does not hold the entity named by the first element of
    [data], and the id of that element does not name a property of
    [Object.prototype], the callback leaves the store exactly as it
    found it. *)
Theorem update_for_uncached_entity_is_lost (response : Response) (s : GameState) :
  (∀ first rest, data response = Some (first :: rest) →
                 entities s !! entityId first = None
                 ∧ entityId first ∉ Object_prototype) →
  store (onEntityUpdate response s) = s.
Proof.
  intros H. unfold onEntityUpdate.
  destruct (error response), (data response) as [[|first rest]|]; try done.
  destruct (decide (entityId first = "0x0")); [done|].
  destruct (H first rest eq_refl) as [Hnone Hid].
  rewrite (updateEntity_undefined (asPartial first) s); [done|].
  intros id [= <-]. by apply getProperty_Undefined.
Qed.

(** X22.  The callback of the initial fetch never touches the ledger
    and never drops a cached entity.  A response with an error or
    without data changes nothing and notifies nobody.  Otherwise, when
    no entity of [data] has the id [__proto__], the callback returns
    and every id is afterwards cached as the last entity of [data] with
    that id, or as it was if [data] has none; when an entity of [data]
    has the id [__proto__], the callback throws and changes nothing.
    These are the only responses for which it throws. *)
Theorem onInitialFetch_installs (resp : Response) (s : GameState) :
  let r := onInitialFetch resp s in
  pendingTransactions (store r) = pendingTransactions s
  ∧ dom (entities s) ⊆ dom (entities (store r))
  ∧ (error resp = true ∨ data resp = None →
     r = {| result := Some tt; store := s; notified := [] |})
  ∧ (∀ es, error resp = false → data resp = Some es →
       Forall (λ e, entityId e ≠ "__proto__") es →
       result r = Some tt
       ∧ ∀ id, entities (store r) !! id =
                 match last (filter (λ e, entityId e = id) es) with
                 | Some e => Some e
                 | None => entities s !! id
                 end)
  ∧ (∀ es, error resp = false → data resp = Some es →
       Exists (λ e, entityId e = "__proto__") es →
       r = {| result := None; store := s; notified := [] |})
  ∧ (result r = None ↔
       error resp = false
       ∧ ∃ es, data resp = Some es ∧ Exists (λ e, entityId e = "__proto__") es).
Proof.
  unfold onInitialFetch.
  destruct (error resp), (data resp) as [es|];
    cbn [result store notified mret StoreM_ret ret];
    try (split_and!; [done|done|naive_solver|done|done|naive_solver]).
  destruct (decide (Forall (λ e, entityId e ≠ "__proto__") es)) as [HF|HF].
  - assert (¬ Exists (λ e, entityId e = "__proto__") es) as HE.
    { intros (e & He & Hid)%Exists_exists.
      by apply (proj1 (Forall_forall _ _) HF e He). }
    rewrite (setEntities_returns _ _ HF). cbn [result store notified].
    split_and!.
    + apply pendingTransactions_foldl_insertEntity.
    + rewrite dom_foldl_insertEntity. set_solver.
    + by intros [|].
    + intros ? _ [= <-] _. split; [done|]. intros id.
      apply lookup_foldl_insertEntity.
    + intros ? _ [= <-] ?. done.
    + split; [done|]. by intros [_ (? & [= <-] & ?)].
  - assert (Exists (λ e, entityId e = "__proto__") es) as HE.
    { apply not_Forall_Exists in HF; [|apply _].
      eapply Exists_impl; [exact HF|]. intros e He. simpl in He.
      by destruct (decide (entityId e = "__proto__")). }
    rewrite (setEntities_throws _ _ HF). cbn [result store notified].
    split_and!; try done.
    + by intros [|].
    + intros ? _ [= <-] ?. done.
    + split; [|done]. intros _. split; [done|]. by exists es.
Qed.

(** * The further properties on the scenario *)


(** X3 on the cache filled from the initial state. *)
Lemma store_stays_keyed_witness :
  keyed initialState ∧ keyed (exec (setEntities [player 0]) initialState).
Proof.
  pose proof (store_stays_keyed initialState) as [H0 H].
  split; [exact H0|]. apply (proj1 (H H0)).
Defined.

(** X4 on the two namespaces: the model [M3] of namespace [B] is still
    there after the update of [A]. *)
Lemma updateEntity_never_removes_witness :
  entities twoNamespaces !! "0x1" = Some storedAB
  ∧ model_at (models storedAB) "B" "M3" = Some (JNum 3)
  ∧ ∃ e' v', entities (exec (updateEntity updateOfA) twoNamespaces) !! "0x1" = Some e'
             ∧ model_at (models e') "B" "M3" = Some v'.
Proof.
  assert (entities twoNamespaces !! "0x1" = Some storedAB) as He by reflexivity.
  assert (model_at (models storedAB) "B" "M3" = Some (JNum 3)) as Hm
    by (vm_compute; reflexivity).
  split; [exact He|]. split; [exact Hm|].
  pose proof (updateEntity_never_removes updateOfA twoNamespaces) as H.
  cbv zeta in H. destruct H as (_ & _ & _ & H).
  exact (H "0x1" storedAB "B" "M3" (JNum 3) He Hm).
Defined.

(** X7 on the scenario. *)
Lemma apply_then_confirm_commits_witness :
  setRemaining 100 seeded = Some spawned
  ∧ pendingTransactions spawned !! "tx1" = None
  ∧ exec (confirmTransaction "tx1")
      (exec (applyOptimisticUpdate "tx1" (setRemaining 100)) seeded) = spawned.
Proof.
  split; [vm_compute; reflexivity|]. split; [reflexivity|].
  apply (apply_then_confirm_commits seeded spawned "tx1" (setRemaining 100));
    [vm_compute; reflexivity|reflexivity].
Defined.

(** X9 on the scenario, with a second update on top of the first. *)
Lemma nested_reverts_restore_witness :
  pendingTransactions seeded !! "tx1" = None
  ∧ pendingTransactions
      (exec (applyOptimisticUpdate "tx1" (setRemaining 100)) seeded) !! "tx2" = None
  ∧ "tx1" ≠ "__proto__"
  ∧ "tx2" ≠ "__proto__"
  ∧ (∀ n, setRemaining 100 seeded = Some n →
          safeScript (inversePatches (ledgerRecord "tx1" seeded n)) = true)
  ∧ (∀ n, setRemaining 50
            (exec (applyOptimisticUpdate "tx1" (setRemaining 100)) seeded) = Some n →
          safeScript
            (inversePatches
               (ledgerRecord "tx2"
                  (exec (applyOptimisticUpdate "tx1" (setRemaining 100)) seeded) n))
          = true)
  ∧ exec (revertOptimisticUpdate "tx1")
      (exec (revertOptimisticUpdate "tx2")
         (exec (applyOptimisticUpdate "tx2" (setRemaining 50))
            (exec (applyOptimisticUpdate "tx1" (setRemaining 100)) seeded))) = seeded.
Proof.
  assert (∀ n, setRemaining 100 seeded = Some n →
               safeScript (inversePatches (ledgerRecord "tx1" seeded n)) = true)
    as Hs1.
  { intros n Hn. vm_compute in Hn. injection Hn as <-. vm_compute. reflexivity. }
  assert (∀ n, setRemaining 50
                 (exec (applyOptimisticUpdate "tx1" (setRemaining 100)) seeded)
               = Some n →
               safeScript
                 (inversePatches
                    (ledgerRecord "tx2"
                       (exec (applyOptimisticUpdate "tx1" (setRemaining 100)) seeded)
                       n)) = true) as Hs2.
  { intros n Hn. vm_compute in Hn. injection Hn as <-. vm_compute. reflexivity. }
  split; [reflexivity|]. split; [vm_compute; reflexivity|].
  split; [done|]. split; [done|]. split; [exact Hs1|]. split; [exact Hs2|].
  apply (nested_reverts_restore seeded "tx1" "tx2" (setRemaining 100)
           (setRemaining 50));
    [reflexivity|vm_compute; reflexivity|done|done|exact Hs1|exact Hs2].
Defined.

(** X10 on the scenario. *)
Lemma assignment_recorded_as_one_patch_witness :
  assignField "0x1" "dojo_starter" "Moves" "remaining" (JNum 100) seeded = Some spawned
  ∧ "remaining" ≠ "__proto__"
  ∧ "tx1" ≠ "__proto__"
  ∧ is_object (JNum 100) = false
  ∧ fieldOf seeded "0x1" "dojo_starter" "Moves" "remaining" ≠ Some (JNum 100)
  ∧ ∃ t, pendingTransactions
           (exec (applyOptimisticUpdate "tx1"
                    (assignField "0x1" "dojo_starter" "Moves" "remaining" (JNum 100)))
              seeded) !! "tx1" = Some t
         ∧ List.length (patches t) = 1%nat
         ∧ List.length (inversePatches t) = 1%nat.
Proof.
  assert (assignField "0x1" "dojo_starter" "Moves" "remaining" (JNum 100) seeded
          = Some spawned) as Hf by (vm_compute; reflexivity).
  assert (fieldOf seeded "0x1" "dojo_starter" "Moves" "remaining" ≠ Some (JNum 100))
    as Hold by (vm_compute; discriminate).
  assert ("remaining" ≠ "__proto__") as Hfield by done.
  assert ("tx1" ≠ "__proto__") as Htid by done.
  split; [exact Hf|]. split; [exact Hfield|]. split; [exact Htid|].
  split; [reflexivity|]. split; [exact Hold|].
  eexists. split.
  - exact (assignment_recorded_as_one_patch seeded spawned "tx1" "0x1"
             "dojo_starter" "Moves" "remaining" (JNum 100) Hf Hfield Htid
             eq_refl Hold).
  - split; reflexivity.
Defined.

(** X11 on the state that the optimistic update of the scenario left. *)
Lemma revert_resets_field_in_current_state_witness :
  assignField "0x1" "dojo_starter" "Moves" "remaining" (JNum 100) seeded = Some spawned
  ∧ "remaining" ≠ "__proto__"
  ∧ reserved "0x1" = false
  ∧ reserved "dojo_starter" = false
  ∧ reserved "Moves" = false
  ∧ is_object (JNum 100) = false
  ∧ fieldOf seeded "0x1" "dojo_starter" "Moves" "remaining" ≠ Some (JNum 100)
  ∧ pendingTransactions optimistic !! "tx1" = Some (ledgerRecord "tx1" seeded spawned)
  ∧ entities optimistic !! "0x1" = Some (player 100)
  ∧ result (revertOptimisticUpdate "tx1" optimistic) = Some tt
  ∧ fieldOf (exec (revertOptimisticUpdate "tx1") optimistic)
      "0x1" "dojo_starter" "Moves" "remaining"
    = fieldOf seeded "0x1" "dojo_starter" "Moves" "remaining".
Proof.
  assert (assignField "0x1" "dojo_starter" "Moves" "remaining" (JNum 100) seeded
          = Some spawned) as Hf by (vm_compute; reflexivity).
  assert ("remaining" ≠ "__proto__") as Hfield by done.
  assert (fieldOf seeded "0x1" "dojo_starter" "Moves" "remaining" ≠ Some (JNum 100))
    as Hold by (vm_compute; discriminate).
  assert (pendingTransactions optimistic !! "tx1"
          = Some (ledgerRecord "tx1" seeded spawned)) as HX
    by (vm_compute; reflexivity).
  assert (entities optimistic !! "0x1" = Some (player 100)) as He
    by (vm_compute; reflexivity).
  assert (models (player 100) !! "dojo_starter"
          = Some ({[ "Moves" := JObj {[ "remaining" := JNum 100 ]} ]}
                    : gmap string json)) as Hns
    by (vm_compute; reflexivity).
  assert (({[ "Moves" := JObj {[ "remaining" := JNum 100 ]} ]} : gmap string json)
            !! "Moves" = Some (JObj {[ "remaining" := JNum 100 ]})) as Hm
    by (vm_compute; reflexivity).
  split; [exact Hf|]. split; [exact Hfield|].
  split; [reflexivity|]. split; [reflexivity|]. split; [reflexivity|].
  split; [reflexivity|].
  split; [exact Hold|]. split; [exact HX|]. split; [exact He|].
  pose proof (revert_resets_field_in_current_state seeded spawned optimistic
                "tx1" "0x1" "dojo_starter" "Moves" "remaining" (JNum 100)
                (player 100) _ _ Hf Hfield eq_refl eq_refl eq_refl eq_refl
                Hold HX He Hns Hm) as H.
  cbv zeta in H. destruct H as (Hr & _ & _ & Hfld).
  split; [exact Hr|exact Hfld].
Defined.

(** X12 on the state of the scenario after the optimistic update, once
    the player's entity has been replaced by one without models. *)
Lemma stale_revert_throws_witness :
  assignField "0x1" "dojo_starter" "Moves" "remaining" (JNum 100) seeded = Some spawned
  ∧ "remaining" ≠ "__proto__"
  ∧ is_object (JNum 100) = false
  ∧ fieldOf seeded "0x1" "dojo_starter" "Moves" "remaining" ≠ Some (JNum 100)
  ∧ stale = exec (setEntities [ {| entityId := "0x1"; models := ∅ |} ]) optimistic
  ∧ pendingTransactions stale !! "tx1" = Some (ledgerRecord "tx1" seeded spawned)
  ∧ entities stale !! "0x1" = Some {| entityId := "0x1"; models := ∅ |}
  ∧ revertOptimisticUpdate "tx1" stale
    = {| result := None; store := stale; notified := [] |}.
Proof.
  assert (assignField "0x1" "dojo_starter" "Moves" "remaining" (JNum 100) seeded
          = Some spawned) as Hf by (vm_compute; reflexivity).
  assert ("remaining" ≠ "__proto__") as Hfield by done.
  assert (fieldOf seeded "0x1" "dojo_starter" "Moves" "remaining" ≠ Some (JNum 100))
    as Hold by (vm_compute; discriminate).
  assert (pendingTransactions stale !! "tx1"
          = Some (ledgerRecord "tx1" seeded spawned)) as HX
    by (vm_compute; reflexivity).
  assert (entities stale !! "0x1" = Some {| entityId := "0x1"; models := ∅ |}) as He
    by (vm_compute; reflexivity).
  split; [exact Hf|]. split; [exact Hfield|]. split; [reflexivity|].
  split; [exact Hold|]. split; [vm_compute; reflexivity|].
  split; [exact HX|]. split; [exact He|].
  apply (stale_revert_throws seeded spawned stale "tx1" "0x1" "dojo_starter" "Moves"
           "remaining" (JNum 100) Hf Hfield eq_refl Hold HX).
  intros e mv He' Hmv. rewrite He in He'. injection He' as <-.
  vm_compute in Hmv. discriminate.
Defined.

(** X13 on the cache whose player already has a hundred moves. *)
Lemma spawn_update_nothing_to_change_witness :
  fieldOf spawned "0x1" "dojo_starter" "Moves" "remaining" = Some (JNum 100)
  ∧ "tx1" ≠ "__proto__"
  ∧ exec (applyOptimisticUpdate "tx1" (spawnRecipe "0x1" 100)) spawned =
    {| entities := entities spawned;
       pendingTransactions :=
         {[ "tx1" := {| transactionId := "tx1"; patches := [];
                        inversePatches := [] |} ]} |}.
Proof.
  assert (fieldOf spawned "0x1" "dojo_starter" "Moves" "remaining" = Some (JNum 100))
    as H by (vm_compute; reflexivity).
  assert ("tx1" ≠ "__proto__") as Htid by done.
  split; [exact H|]. split; [exact Htid|]. unfold exec.
  rewrite (spawn_update_nothing_to_change spawned "tx1" "0x1" 100 (or_intror H)).
  rewrite decide_False by exact Htid. reflexivity.
Defined.

(** X14 on the scenario. *)
Lemma spawn_wait_rejected_at_once_witness :
  entities seeded !! "0x1" = Some (player 0)
  ∧ model_at (models (player 0)) "dojo_starter" "Moves"
    = Some (JObj {[ "remaining" := JNum 0 ]})
  ∧ promise (waitForEntityChange "0x1" (remainingIs 100)
               (exec (applyOptimisticUpdate "tx1" (spawnRecipe "0x1" 100)) seeded))
    = Rejected (ReferenceError "timer").
Proof.
  assert (entities seeded !! "0x1" = Some (player 0)) as He by reflexivity.
  assert (model_at (models (player 0)) "dojo_starter" "Moves"
          = Some (JObj {[ "remaining" := JNum 0 ]})) as Hm
    by (vm_compute; reflexivity).
  split; [exact He|]. split; [exact Hm|].
  by rewrite (spawn_wait_rejected_at_once seeded "tx1" "0x1" 100 (player 0)
                {[ "remaining" := JNum 0 ]} He Hm).
Defined.

(** X15 on the scenario. *)
Lemma spawn_failure_restores_witness :
  pendingTransactions seeded !! "tx1" = None
  ∧ "tx1" ≠ "__proto__"
  ∧ reserved "0x1" = false
  ∧ store ((applyOptimisticUpdate "tx1" (spawnRecipe "0x1" 100) ;;
            spawnSettle "tx1" true) seeded) = seeded.
Proof.
  split; [reflexivity|]. split; [done|]. split; [reflexivity|].
  pose proof (spawn_failure_restores seeded "tx1" "0x1" 100 eq_refl) as H.
  cbv zeta in H. destruct H as (_ & H & _).
  apply H; [done|reflexivity].
Defined.

(** X17 on the scenario: the wait starts on the seeded cache, sees it once
    more and then the cache with a hundred moves. *)
Lemma wait_resolves_with_first_match_witness :
  remainingIs 100 (getProperty (entities seeded) "0x1") = false
  ∧ remainingIs 100 (getProperty (entities spawned) "0x1") = true
  ∧ promise (deliver "0x1" (remainingIs 100) ([seeded] ++ [spawned])
               (waitForEntityChange "0x1" (remainingIs 100) seeded))
    = Resolved (Own (player 100)).
Proof.
  assert (remainingIs 100 (getProperty (entities seeded) "0x1") = false) as H0
    by (vm_compute; reflexivity).
  assert (remainingIs 100 (getProperty (entities spawned) "0x1") = true) as H1
    by (vm_compute; reflexivity).
  split; [exact H0|]. split; [exact H1|].
  pose proof (wait_resolves_with_first_match "0x1" (remainingIs 100) 6 seeded
                spawned [seeded] [] H0 (Forall_cons_2 _ _ _ H0 (Forall_nil_2 _)) H1)
    as H.
  cbv zeta in H. destruct H as (-> & _). reflexivity.
Defined.

(** X18 on the scenario: the cache with a hundred moves arrives after
    the timer fired. *)
Lemma wait_times_out_and_stays_rejected_witness :
  remainingIs 100 (getProperty (entities seeded) "0x1") = false
  ∧ promise (deliver "0x1" (remainingIs 100) [spawned]
               (timer_fires 6
                  (deliver "0x1" (remainingIs 100) [seeded]
                     (waitForEntityChange "0x1" (remainingIs 100) seeded))))
    = Rejected (TimeoutExceeded 6).
Proof.
  assert (remainingIs 100 (getProperty (entities seeded) "0x1") = false) as H0
    by (vm_compute; reflexivity).
  split; [exact H0|].
  pose proof (wait_times_out_and_stays_rejected "0x1" (remainingIs 100) 6 seeded
                [seeded] [spawned] H0 (Forall_cons_2 _ _ _ H0 (Forall_nil_2 _)))
    as H.
  cbv zeta in H. destruct H as (-> & ->). reflexivity.
Defined.

(** X20 on the seeded cache: a response whose first element has the id
    ["0x0"] is ignored. *)
Lemma onEntityUpdate_touches_one_entity_witness :
  let response :=
    {| error := false;
       data := Some [ {| entityId := "0x0"; models := moves 9 |}; player 100 ] |} in
  store (onEntityUpdate response seeded) = seeded
  ∧ notified (onEntityUpdate response seeded) = [].
Proof.
  intros response.
  pose proof (onEntityUpdate_touches_one_entity response seeded) as H.
  cbv zeta in H. destruct H as (_ & _ & _ & H & _).
  exact (H _ _ eq_refl eq_refl).
Defined.

(** X21 on the seeded cache: the update for a newcomer is lost. *)
Lemma update_for_uncached_entity_is_lost_witness :
  entities seeded !! entityId stranger = None
  ∧ (entityId stranger ∉ Object_prototype)
  ∧ store (onEntityUpdate strangerArrives seeded) = seeded.
Proof.
  assert (entities seeded !! entityId stranger = None) as Hnone by reflexivity.
  assert (entityId stranger ∉ Object_prototype) as Hid
    by (apply (bool_decide_unpack _); vm_compute; exact I).
  split; [exact Hnone|]. split; [exact Hid|].
  apply (update_for_uncached_entity_is_lost strangerArrives seeded).
  by intros first rest [= <- _].
Defined.

(** X22 on the seeded cache: of two fetched entities with the same id
    the last one is cached. *)
Lemma onInitialFetch_installs_witness :
  let resp := {| error := false; data := Some [player 50; player 100] |} in
  Forall (λ e, entityId e ≠ "__proto__") [player 50; player 100]
  ∧ result (onInitialFetch resp seeded) = Some tt
  ∧ entities (store (onInitialFetch resp seeded)) !! "0x1" = Some (player 100).
Proof.
  intros resp.
  assert (Forall (λ e, entityId e ≠ "__proto__") [player 50; player 100]) as HF
    by (repeat constructor; done).
  split; [exact HF|].
  pose proof (onInitialFetch_installs resp seeded) as H.
  cbv zeta in H. destruct H as (_ & _ & _ & H & _).
  destruct (H _ eq_refl eq_refl HF) as [Hr Hl].
  split; [exact Hr|]. rewrite Hl. vm_compute. reflexivity.
Defined.
